(** * Photo_cluster: the client-side data layer

    A shallow embedding of the TypeScript sources

      - frontend/src/services/apiClient.ts     (module [ApiClient])
      - frontend/src/services/cacheService.ts  (module [CacheService])
      - frontend/src/hooks/useApi.ts           (module [UseApi])
      - frontend/src/hooks/useImagePreloader.ts (module [UseImagePreloader])
      - frontend/src/hooks/useErrorHandler.ts  (modules [UseErrorHandler],
                                                [UseRetry])
      - unnamed/part_000                       (module [UseVirtualScroll])

    JavaScript numbers are integers wherever the sources use them as
    counters, timestamps, durations or HTTP status codes; they are modelled
    as [Z].  Asynchronous code is modelled by explicit state passing: the
    environment (network, clock, image loader) is a parameter, and every
    suspension point of an [async] function is a step of a transition
    system. *)

From stdpp Require Import base numbers list strings gmap pretty.

Local Open Scope Z_scope.

(** ** JavaScript values shared by the modules *)

Module Js.

(** An [Error] instance, as far as the sources inspect it. *)
Record Error := mkError { name : string; message : string }.

(** A thrown value or promise rejection: an [Error] instance, or
    anything else (for which [error instanceof Error] is false). *)
Inductive Thrown :=
| ThrowError (e : Error)
| ThrowOther.

(** [new Error(msg)] *)
Definition newError (msg : string) : Error :=
  {| name := "Error"; message := msg |}.

(** [s.includes(search)] *)
Fixpoint includes (s search : string) : bool :=
  String.prefix search s ||
  match s with
  | EmptyString => false
  | String _ rest => includes rest search
  end.

(** [a || b] on strings whose left operand may be undefined: the empty
    string and undefined are falsy. *)
Definition orElse (a : option string) (b : string) : string :=
  match a with
  | Some s => if String.eqb s "" then b else s
  | None => b
  end.

(** Code that may throw: [inl] is the thrown value, and a throw skips the
    rest of the block up to the enclosing [catch]. *)
#[global] Instance throwing_ret : MRet (sum Thrown) := λ A x, inr x.
#[global] Instance throwing_bind : MBind (sum Thrown) :=
  λ A B f x, match x with inl e => inl e | inr a => f a end.

(** The result of awaiting a promise. *)
Inductive Settled (A : Type) :=
| Resolved (value : A)
| Rejected (reason : Thrown).
Arguments Resolved {A} value.
Arguments Rejected {A} reason.

End Js.

(** ** services/apiClient.ts *)

Module RequestConfig.
(** [interface RequestConfig extends RequestInit] *)
Record t := mk {
  method : option string;
  body : option string;
  headers : gmap string string;
  timeout : option Z;
  retries : option Z;
  retryDelay : option Z;
}.

Definition empty : t :=
  {| method := None; body := None; headers := ∅;
     timeout := None; retries := None; retryDelay := None |}.
End RequestConfig.

Module ApiClientConfig.
Record t := mk {
  baseUrl : string;
  timeout : Z;
  retries : Z;
  retryDelay : Z;
}.
End ApiClientConfig.

Module ApiClient.
Import Js.

(** A parsed JSON body: an object with string-valued properties
    ([ApiError] is [{ detail: string; error_code?: string }]). *)
Abbreviation Json := (gmap string string).

(** The [Response] of [fetch], as far as the client inspects it:
    [json] is what [response.json()] settles to. *)
Record Response := mkResponse {
  status : Z;
  statusText : string;
  contentType : option string;
  json : Settled Json;
}.

(** [response.ok] *)
Definition ok (response : Response) : bool :=
  (200 <=? status response) && (status response <=? 299).

(** What a successful request returns: decoded JSON, or the response. *)
Inductive Result :=
| Parsed (data : Json)
| Raw (response : Response).

(** What the network does with one [fetch] call: it settles after
    [after] milliseconds (resolving with a response or rejecting), or it
    never settles. *)
Inductive NetOutcome :=
| Settles (after : Z) (result : Thrown + Response)
| NeverSettles.

(** Observable effects of one request, in order. *)
Inductive Event :=
| Fetch (url : string) (config : RequestConfig.t)
| Sleep (ms : Z).

Record t := mk {
  config : ApiClientConfig.t;
  requestInterceptors : list (RequestConfig.t → RequestConfig.t);
  responseInterceptors : list (Response → Thrown + Response);
}.

(** [new ApiClient()] with [REACT_APP_API_URL] unset. *)
Definition new : t :=
  {| config := {| ApiClientConfig.baseUrl := "http://localhost:8000";
                  ApiClientConfig.timeout := 30000;
                  ApiClientConfig.retries := 3;
                  ApiClientConfig.retryDelay := 1000 |};
     requestInterceptors := [];
     responseInterceptors := [] |}.

Definition isFetch (e : Event) : bool :=
  match e with Fetch _ _ => true | Sleep _ => false end.

(** Number of network calls in a trace. *)
Definition attempts (trace : list Event) : nat :=
  length (filter (λ e, isFetch e = true) trace).

(** The delays slept, in order. *)
Definition sleeps (trace : list Event) : list Z :=
  omap (λ e, match e with Sleep ms => Some ms | Fetch _ _ => None end) trace.

(** The trace of a request whose attempts all fail and are retried: the
    attempt numbered [attempt] and [n] re-attempts after it, each after
    its backoff delay. *)
Fixpoint backoff (url : string) (cfg : RequestConfig.t) (retryDelay : Z)
    (n : nat) (attempt : Z) : list Event :=
  match n with
  | O => [Fetch url cfg]
  | S n' =>
      Fetch url cfg :: Sleep (retryDelay * 2 ^ attempt)
        :: backoff url cfg retryDelay n' (attempt + 1)
  end.

Section Network.
(** The message of the [AbortError] with which an aborted [fetch]
    rejects (it differs between engines). *)
Variable abortMessage : string.

(** The handler behind the network boundary: what the [fetch] of
    attempt number [attempt] does. *)
Variable handler : Z → string → RequestConfig.t → NetOutcome.

Variable client : t.

Definition abortError : Error :=
  {| name := "AbortError"; message := abortMessage |}.

(** [requestWithTimeout]: the timer aborts the call when it fires
    before the call settles. *)
Definition requestWithTimeout (url : string) (config : RequestConfig.t)
    (net : NetOutcome) : Thrown + Response :=
  let timeout :=
    default (ApiClientConfig.timeout (ApiClient.config client))
            (RequestConfig.timeout config) in
  match net with
  | NeverSettles => inl (ThrowError abortError)
  | Settles after result =>
      if timeout <? after then inl (ThrowError abortError) else result
  end.

(** The timer of [requestWithTimeout] fires before the call settles. *)
Definition timerFiresFirst (config : RequestConfig.t) (net : NetOutcome)
    : Prop :=
  match net with
  | NeverSettles => True
  | Settles after _ =>
      default (ApiClientConfig.timeout (ApiClient.config client))
              (RequestConfig.timeout config) < after
  end.

(** The response interceptors, in registration order. *)
Fixpoint applyResponseInterceptors
    (interceptors : list (Response → Thrown + Response))
    (response : Response) : Thrown + Response :=
  match interceptors with
  | [] => mret response
  | interceptor :: rest =>
      response' ← interceptor response;
      applyResponseInterceptors rest response'
  end.

(** The body of the [try] block after the response interceptors. *)
Definition handleResponse (response : Response) : Thrown + Result :=
  if negb (ok response) then
    let errorData : Json :=
      match json response with
      | Resolved data => data
      | Rejected _ =>
          {[ "detail" := "HTTP " +:+ pretty (status response) +:+ ": "
                           +:+ statusText response ]}
      end in
    if (400 <=? status response) && (status response <? 500) then
      inl (ThrowError
             (newError (orElse (errorData !! "detail") "Client error occurred")))
    else
      inl (ThrowError
             (newError (orElse (errorData !! "detail") "Server error occurred")))
  else
    match contentType response with
    | Some ct =>
        if includes ct "application/json" then
          match json response with
          | Resolved data => inr (Parsed data)
          | Rejected e => inl e
          end
        else inr (Raw response)
    | None => inr (Raw response)
    end.

(** The message of the error that [handleResponse] throws for a
    response that is not ok. *)
Definition failureMessage (response : Response) : string :=
  orElse
    (match json response with
     | Resolved errorData => errorData !! "detail"
     | Rejected _ =>
         Some ("HTTP " +:+ pretty (status response) +:+ ": "
                 +:+ statusText response)
     end)
    (if (400 <=? status response) && (status response <? 500)
     then "Client error occurred" else "Server error occurred").

(** One pass through the [try] block. *)
Definition tryOnce (url : string) (finalConfig : RequestConfig.t)
    (attempt : Z) : Thrown + Result :=
  response ← requestWithTimeout url finalConfig (handler attempt url finalConfig);
  response' ← applyResponseInterceptors (responseInterceptors client) response;
  handleResponse response'.

(** [error instanceof Error ? error : new Error('Unknown error')] *)
Definition asError (error : Thrown) : Error :=
  match error with
  | ThrowError e => e
  | ThrowOther => newError "Unknown error"
  end.

(** The test of the [catch] block that ends the loop at once. *)
Definition notRetried (lastError : Error) : bool :=
  String.eqb (name lastError) "AbortError"
  || includes (message lastError) "Client error".

(** [throw lastError!] *)
Definition throwLast (lastError : option Error) : Thrown :=
  match lastError with
  | Some e => ThrowError e
  | None => ThrowOther
  end.

(** [for (let attempt = 0; attempt <= retries; attempt++)]: [remaining]
    is the number of iterations left, [Z.to_nat (retries + 1 - attempt)].
    [Math.pow(2, attempt)] is exact on the integers. *)
Fixpoint retryLoop (url : string) (finalConfig : RequestConfig.t)
    (retries retryDelay : Z) (remaining : nat) (attempt : Z)
    (lastError : option Error) : (Thrown + Result) * list Event :=
  match remaining with
  | O => (inl (throwLast lastError), [])
  | S remaining' =>
      match tryOnce url finalConfig attempt with
      | inr result => (inr result, [Fetch url finalConfig])
      | inl error =>
          let lastError := asError error in
          if notRetried lastError then
            (inl (ThrowError lastError), [Fetch url finalConfig])
          else if attempt =? retries then
            (inl (ThrowError lastError), [Fetch url finalConfig])
          else
            let delay := retryDelay * 2 ^ attempt in
            let '(outcome, trace) :=
              retryLoop url finalConfig retries retryDelay remaining'
                        (attempt + 1) (Some lastError) in
            (outcome, Fetch url finalConfig :: Sleep delay :: trace)
      end
  end.

(** The request interceptors, then the default headers. *)
Definition mergeConfig (config : RequestConfig.t) : RequestConfig.t :=
  let requestConfig :=
    {| RequestConfig.method := RequestConfig.method config;
       RequestConfig.body := RequestConfig.body config;
       RequestConfig.headers := RequestConfig.headers config;
       RequestConfig.timeout := RequestConfig.timeout config;
       RequestConfig.retries := None;
       RequestConfig.retryDelay := None |} in
  let finalConfig :=
    fold_left (λ c interceptor, interceptor c)
              (requestInterceptors client) requestConfig in
  {| RequestConfig.method := RequestConfig.method finalConfig;
     RequestConfig.body := RequestConfig.body finalConfig;
     RequestConfig.headers :=
       RequestConfig.headers finalConfig
       ∪ {[ "Content-Type" := "application/json" ]};
     RequestConfig.timeout := RequestConfig.timeout finalConfig;
     RequestConfig.retries := RequestConfig.retries finalConfig;
     RequestConfig.retryDelay := RequestConfig.retryDelay finalConfig |}.

Definition requestWithRetry (endpoint : string) (config : RequestConfig.t)
    : (Thrown + Result) * list Event :=
  let retries :=
    default (ApiClientConfig.retries (ApiClient.config client))
            (RequestConfig.retries config) in
  let retryDelay :=
    default (ApiClientConfig.retryDelay (ApiClient.config client))
            (RequestConfig.retryDelay config) in
  let url := ApiClientConfig.baseUrl (ApiClient.config client) +:+ endpoint in
  retryLoop url (mergeConfig config) retries retryDelay
            (Z.to_nat (retries + 1)) 0 None.

End Network.

(** [addRequestInterceptor] *)
Definition addRequestInterceptor
    (interceptor : RequestConfig.t → RequestConfig.t) (client : t) : t :=
  {| config := config client;
     requestInterceptors := requestInterceptors client ++ [interceptor];
     responseInterceptors := responseInterceptors client |}.

(** [addResponseInterceptor] *)
Definition addResponseInterceptor
    (interceptor : Response → Thrown + Response) (client : t) : t :=
  {| config := config client;
     requestInterceptors := requestInterceptors client;
     responseInterceptors := responseInterceptors client ++ [interceptor] |}.

(** The request interceptor that the module registers on the client it
    exports; [token] is what [localStorage.getItem('auth_token')] returns
    (the empty string is falsy). *)
Definition authInterceptor (token : option string) (config : RequestConfig.t)
    : RequestConfig.t :=
  match token with
  | Some t =>
      if String.eqb t "" then config
      else
        {| RequestConfig.method := RequestConfig.method config;
           RequestConfig.body := RequestConfig.body config;
           RequestConfig.headers :=
             <["Authorization" := "Bearer " +:+ t]> (RequestConfig.headers config);
           RequestConfig.timeout := RequestConfig.timeout config;
           RequestConfig.retries := RequestConfig.retries config;
           RequestConfig.retryDelay := RequestConfig.retryDelay config |}
  | None => config
  end.

(** The exported [apiClient] outside development mode, in a page whose
    storage holds [token]. *)
Definition apiClient (token : option string) : t :=
  addRequestInterceptor (authInterceptor token) new.

(** [get]: [{ method: 'GET', ...config }] *)
Definition get (abortMessage : string)
    (handler : Z → string → RequestConfig.t → NetOutcome) (client : t)
    (endpoint : string) (config : RequestConfig.t)
    : (Thrown + Result) * list Event :=
  requestWithRetry abortMessage handler client endpoint
    {| RequestConfig.method := Some (default "GET" (RequestConfig.method config));
       RequestConfig.body := RequestConfig.body config;
       RequestConfig.headers := RequestConfig.headers config;
       RequestConfig.timeout := RequestConfig.timeout config;
       RequestConfig.retries := RequestConfig.retries config;
       RequestConfig.retryDelay := RequestConfig.retryDelay config |}.

(** The time a request spends in [sleep]. *)
Definition totalSleep (trace : list Event) : Z :=
  foldr Z.add 0 (sleeps trace).

End ApiClient.


(** Handlers and responses used as concrete inputs below. *)
Module ApiScenarios.
Import Js ApiClient.

(** A handler that answers every attempt with [response] after 25 ms. *)
Definition always (response : Response)
    : Z → string → RequestConfig.t → NetOutcome :=
  λ _ _ _, Settles 25 (inr response).

(** A 404 with the structured body the backend sends. *)
Definition notFound : Response :=
  {| status := 404; statusText := "Not Found";
     contentType := Some "application/json";
     json := Resolved {[ "detail" := "Person not found" ]} |}.

(** A 404 whose body is not JSON. *)
Definition notFoundPlain : Response :=
  {| status := 404; statusText := "Not Found";
     contentType := Some "text/html";
     json := Rejected (ThrowError {| name := "SyntaxError";
                                     message := "Unexpected token <" |}) |}.

(** A 404 whose JSON body has no [detail]. *)
Definition notFoundNoDetail : Response :=
  {| status := 404; statusText := "Not Found";
     contentType := Some "application/json";
     json := Resolved ∅ |}.

(** A 503 with a structured body. *)
Definition unavailable : Response :=
  {| status := 503; statusText := "Service Unavailable";
     contentType := Some "application/json";
     json := Resolved {[ "detail" := "Database is starting up" ]} |}.

(** A 503 whose [detail] reports the failure of an upstream call. *)
Definition upstreamFailed : Response :=
  {| status := 503; statusText := "Service Unavailable";
     contentType := Some "application/json";
     json := Resolved {[ "detail" :=
       "Client error '404 Not Found' for url 'http://storage/thumbs/42'" ]} |}.

(** One 503, then silence. *)
Definition failsThenHangs : Z → string → RequestConfig.t → NetOutcome :=
  λ attempt _ _, if attempt =? 0 then Settles 25 (inr unavailable)
                 else NeverSettles.

(** [{ retries: 2 }] *)
Definition twoRetries : RequestConfig.t :=
  {| RequestConfig.method := Some "GET"; RequestConfig.body := None;
     RequestConfig.headers := ∅; RequestConfig.timeout := None;
     RequestConfig.retries := Some 2; RequestConfig.retryDelay := None |}.

(** [{ timeout: 50, retries: 5 }] *)
Definition shortTimeout : RequestConfig.t :=
  {| RequestConfig.method := Some "GET"; RequestConfig.body := None;
     RequestConfig.headers := ∅; RequestConfig.timeout := Some 50;
     RequestConfig.retries := Some 5; RequestConfig.retryDelay := None |}.

(** Two 503s, then a JSON answer. *)
Definition failsTwice : Z → string → RequestConfig.t → NetOutcome :=
  λ attempt _ _,
    if attempt <? 2 then Settles 25 (inr unavailable)
    else Settles 25 (inr {| status := 200; statusText := "OK";
                            contentType := Some "application/json; charset=utf-8";
                            json := Resolved {[ "total" := "0" ]} |}).


End ApiScenarios.

(** ** services/cacheService.ts *)

(** A JavaScript [Map] with string keys: iteration is in insertion order,
    and [set] on a key that is present keeps the key's position. *)
Module JsMap.
Section Values.
Context {V : Type}.

Definition t := list (string * V).

Fixpoint get (key : string) (m : t) : option V :=
  match m with
  | [] => None
  | (k, v) :: rest => if String.eqb k key then Some v else get key rest
  end.

Definition has (key : string) (m : t) : bool :=
  match get key m with Some _ => true | None => false end.

Fixpoint set (key : string) (value : V) (m : t) : t :=
  match m with
  | [] => [(key, value)]
  | (k, v) :: rest =>
      if String.eqb k key then (k, value) :: rest
      else (k, v) :: set key value rest
  end.

Fixpoint delete (key : string) (m : t) : t :=
  match m with
  | [] => []
  | (k, v) :: rest =>
      if String.eqb k key then rest else (k, v) :: delete key rest
  end.

Definition size (m : t) : Z := Z.of_nat (length m).

Definition keys (m : t) : list string := m.*1.
End Values.
Arguments t : clear implicits.
End JsMap.

Module CacheService.

(** ['memory' | 'localStorage' | 'sessionStorage'] *)
Inductive Storage := memory | localStorage | sessionStorage.

#[global] Instance Storage_eq_dec : EqDecision Storage.
Proof. solve_decision. Defined.

Record CacheOptions := mkOptions {
  opt_ttl : option Z;
  opt_storage : option Storage;
  opt_maxSize : option Z;
}.

(** [options = {}] *)
Definition noOptions : CacheOptions :=
  {| opt_ttl := None; opt_storage := None; opt_maxSize := None |}.

(** [getStorageKey] *)
Definition getStorageKey (key : string) : string :=
  "photo_gallery_cache_" +:+ key.

Section Data.
Context {T : Type}.

Record CacheItem := mkItem {
  data : T;
  timestamp : Z;
  ttl : Z;
  key : string;
}.

(** A Web Storage area.  The text stored under a key is either the
    [JSON.stringify] of a cache item, which [JSON.parse] gives back
    ([Some item]), or a text that [JSON.parse] rejects or the empty
    text ([None]).  Data that does not survive serialisation is outside
    the model. *)
Abbreviation WebStorage := (gmap string (option CacheItem)).

(** The service instance together with the two storage areas of the
    page. *)
Record t := mk {
  memoryCache : JsMap.t CacheItem;
  defaultTTL : Z;
  maxSize : Z;
  window_localStorage : WebStorage;
  window_sessionStorage : WebStorage;
}.

(** [new CacheService()] in a page whose storage areas are empty. *)
Definition new : t :=
  {| memoryCache := [];
     defaultTTL := 5 * 60 * 1000;
     maxSize := 100;
     window_localStorage := ∅;
     window_sessionStorage := ∅ |}.

Definition withMemory (c : t) (m : JsMap.t CacheItem) : t :=
  {| memoryCache := m;
     defaultTTL := defaultTTL c;
     maxSize := maxSize c;
     window_localStorage := window_localStorage c;
     window_sessionStorage := window_sessionStorage c |}.

Definition withLocal (c : t) (s : WebStorage) : t :=
  {| memoryCache := memoryCache c;
     defaultTTL := defaultTTL c;
     maxSize := maxSize c;
     window_localStorage := s;
     window_sessionStorage := window_sessionStorage c |}.

Definition withSession (c : t) (s : WebStorage) : t :=
  {| memoryCache := memoryCache c;
     defaultTTL := defaultTTL c;
     maxSize := maxSize c;
     window_localStorage := window_localStorage c;
     window_sessionStorage := s |}.

(** The keys of the memory cache are distinct, as those of a [Map]
    are. *)
Definition wellFormed (c : t) : Prop := NoDup (JsMap.keys (memoryCache c)).

(** [isExpired], with [Date.now()] passed as [now]. *)
Definition isExpired (now : Z) (item : CacheItem) : bool :=
  ttl item <? now - timestamp item.

(** The [forEach] of [evictOldest]: the running [oldestKey] and
    [oldestTimestamp]. *)
Definition oldestStep (acc : string * Z) (entry : string * CacheItem)
    : string * Z :=
  if timestamp entry.2 <? acc.2 then (entry.1, timestamp entry.2) else acc.

Definition findOldest (now : Z) (m : JsMap.t CacheItem) : string * Z :=
  fold_left oldestStep m ("", now).

(** [evictOldest], with its [Date.now()] passed as [now].  The test
    [if (oldestKey)] fails for the empty string. *)
Definition evictOldest (now : Z) (c : t) : t :=
  if JsMap.size (memoryCache c) <=? maxSize c then c
  else
    let oldestKey := (findOldest now (memoryCache c)).1 in
    if String.eqb oldestKey "" then c
    else withMemory c (JsMap.delete oldestKey (memoryCache c)).

(** [set].  [now] is the [Date.now()] of the new item, [evictNow] the
    later one of [evictOldest], and [writeFails] tells whether the
    [setItem] of a persistent backend throws.  The [maxSize] option is
    destructured and not used. *)
Definition set (key : string) (data : T) (options : CacheOptions)
    (now evictNow : Z) (writeFails : bool) (c : t) : t :=
  let ttl := default (defaultTTL c) (opt_ttl options) in
  let storage := default memory (opt_storage options) in
  let item := {| data := data; timestamp := now; ttl := ttl; key := key |} in
  match storage with
  | memory =>
      evictOldest evictNow (withMemory c (JsMap.set key item (memoryCache c)))
  | localStorage =>
      if writeFails then withMemory c (JsMap.set key item (memoryCache c))
      else withLocal c (<[getStorageKey key := Some item]> (window_localStorage c))
  | sessionStorage =>
      if writeFails then withMemory c (JsMap.set key item (memoryCache c))
      else withSession c (<[getStorageKey key := Some item]> (window_sessionStorage c))
  end.

(** [delete] *)
Definition delete (key : string) (storage : Storage) (c : t) : t :=
  match storage with
  | memory => withMemory c (JsMap.delete key (memoryCache c))
  | localStorage =>
      withLocal c (base.delete (getStorageKey key) (window_localStorage c))
  | sessionStorage =>
      withSession c (base.delete (getStorageKey key) (window_sessionStorage c))
  end.

(** The item that [get] reads from the backend, if any. *)
Definition readItem (key : string) (storage : Storage) (c : t)
    : option CacheItem :=
  match storage with
  | memory => JsMap.get key (memoryCache c)
  | localStorage => mjoin (window_localStorage c !! getStorageKey key)
  | sessionStorage => mjoin (window_sessionStorage c !! getStorageKey key)
  end.

(** [get]: the value returned ([None] is [null]) and the cache after
    the call. *)
Definition get (key : string) (storage : Storage) (now : Z) (c : t)
    : option T * t :=
  match readItem key storage c with
  | None => (None, c)
  | Some item =>
      if isExpired now item then (None, delete key storage c)
      else (Some (data item), c)
  end.

Definition countPrefixed (s : WebStorage) : Z :=
  Z.of_nat (base.size
    (filter (λ kv, String.prefix "photo_gallery_cache_" kv.1 = true) s)).

(** [size] *)
Definition size (storage : Storage) (c : t) : Z :=
  match storage with
  | memory => JsMap.size (memoryCache c)
  | localStorage => countPrefixed (window_localStorage c)
  | sessionStorage => countPrefixed (window_sessionStorage c)
  end.

(** [has] *)
Definition has (key : string) (storage : Storage) (now : Z) (c : t)
    : bool * t :=
  (bool_decide (is_Some (get key storage now c).1), (get key storage now c).2).

(** What the sweep of [cleanup] removes from a storage area: the entries
    under the prefix whose text does not parse or whose item is expired. *)
Definition swept (now : Z) (kv : string * option CacheItem) : bool :=
  String.prefix "photo_gallery_cache_" kv.1
  && match kv.2 with
     | Some item => isExpired now item
     | None => true
     end.

Definition sweepStorage (now : Z) (s : WebStorage) : WebStorage :=
  filter (λ kv, swept now kv = false) s.

(** [cleanup], with the clock at [now] during the sweep: the keys of the
    expired entries of the memory cache are collected and then deleted one
    by one, and the two storage areas are swept. *)
Definition cleanup (now : Z) (c : t) : t :=
  let keysToDelete :=
    (filter (λ kv, isExpired now kv.2 = true) (memoryCache c)).*1 in
  {| memoryCache :=
       foldl (λ m key, JsMap.delete key m) (memoryCache c) keysToDelete;
     defaultTTL := defaultTTL c;
     maxSize := maxSize c;
     window_localStorage := sweepStorage now (window_localStorage c);
     window_sessionStorage := sweepStorage now (window_sessionStorage c) |}.

(** What [clear] leaves of a storage area: the keys outside the prefix. *)
Definition clearStorage (s : WebStorage) : WebStorage :=
  filter (λ kv, String.prefix "photo_gallery_cache_" kv.1 = false) s.

(** [clear]; [None] is the call without an argument. *)
Definition clear (storage : option Storage) (c : t) : t :=
  {| memoryCache :=
       match storage with
       | None | Some memory => []
       | _ => memoryCache c
       end;
     defaultTTL := defaultTTL c;
     maxSize := maxSize c;
     window_localStorage :=
       match storage with
       | None | Some localStorage => clearStorage (window_localStorage c)
       | _ => window_localStorage c
       end;
     window_sessionStorage :=
       match storage with
       | None | Some sessionStorage => clearStorage (window_sessionStorage c)
       | _ => window_sessionStorage c
       end |}.

(** [destroy], the timer apart. *)
Definition destroy (c : t) : t := clear None c.

(** The text that a storage area holds under a key, as [readItem] sees
    the areas. *)
Definition stored (k : string) (storage : Storage) (c : t)
    : option (option CacheItem) :=
  match storage with
  | memory => None
  | localStorage => window_localStorage c !! k
  | sessionStorage => window_sessionStorage c !! k
  end.

End Data.
Arguments CacheItem : clear implicits.
Arguments t : clear implicits.

End CacheService.

(** Caches used as concrete inputs below. *)
Module CacheScenarios.
Import CacheService.

(** [{ ttl: 100 }] *)
Definition ttl100 : CacheOptions :=
  {| opt_ttl := Some 100; opt_storage := None; opt_maxSize := None |}.

(** [{ maxSize: 2 }] *)
Definition atMostTwo : CacheOptions :=
  {| opt_ttl := None; opt_storage := None; opt_maxSize := Some 2 |}.

(** [set("a", 1, { ttl: 100 })] at time 0 on a new cache. *)
Definition oneEntry : CacheService.t Z :=
  set "a" 1 ttl100 0 0 false CacheService.new.

(** Three inserts with [{ maxSize: 2 }], at times 1, 2 and 3. *)
Definition threeEntries : CacheService.t Z :=
  set "c" 3 atMostTwo 3 3 false
    (set "b" 2 atMostTwo 2 2 false
       (set "a" 1 atMostTwo 1 1 false CacheService.new)).

(** [n] inserts under the keys k0, k1, ... within the millisecond
    [now], as a loop filling the cache makes them. *)
Definition fill (now : Z) (n : nat) : CacheService.t Z :=
  foldl (λ c (i : nat), set ("k" +:+ pretty i) (Z.of_nat i) noOptions now now false c)
        CacheService.new (seq 0 n).

(** [n] inserts under the keys k0, k1, ... at the times
    [start], [start + 1], ... *)
Definition fillApart (start : Z) (n : nat) : CacheService.t Z :=
  foldl (λ c (i : nat),
           set ("k" +:+ pretty i) (Z.of_nat i) noOptions
               (start + Z.of_nat i) (start + Z.of_nat i) false c)
        CacheService.new (seq 0 n).

(** A memory cache one entry over a ceiling of two. *)
Definition overfull : CacheService.t Z :=
  {| memoryCache :=
       [("b", {| data := 2; timestamp := 20; ttl := 100; key := "b" |});
        ("a", {| data := 1; timestamp := 10; ttl := 100; key := "a" |});
        ("c", {| data := 3; timestamp := 30; ttl := 100; key := "c" |})];
     defaultTTL := 5 * 60 * 1000;
     maxSize := 2;
     window_localStorage := ∅;
     window_sessionStorage := ∅ |}.

(** [{ storage: 'localStorage', ttl: 100 }] *)
Definition durable100 : CacheOptions :=
  {| opt_ttl := Some 100; opt_storage := Some localStorage; opt_maxSize := None |}.

(** A cache with a fresh and an expired entry in memory, and a storage
    area that holds an expired entry, an entry that does not parse and the
    key of another application. *)
Definition mixed : CacheService.t Z :=
  {| memoryCache :=
       [("old", {| data := 1; timestamp := 0; ttl := 100; key := "old" |});
        ("new", {| data := 2; timestamp := 150; ttl := 100; key := "new" |})];
     defaultTTL := 5 * 60 * 1000;
     maxSize := 100;
     window_localStorage :=
       {[ "photo_gallery_cache_old" :=
            Some {| data := 3; timestamp := 0; ttl := 100; key := "old" |};
          "photo_gallery_cache_broken" := None;
          "theme" := None ]};
     window_sessionStorage := ∅ |}.

End CacheScenarios.

(** ** hooks/useApi.ts: the generic fetch hook *)

Module UseApi.
Import Js.

(** [error instanceof Error ? error.message : 'An error occurred'] *)
Definition errorMessage (error : Thrown) : string :=
  match error with
  | ThrowError e => message e
  | ThrowOther => "An error occurred"
  end.

Section Generic.
Context {T : Type}.

Record UseApiState := mkState {
  data : option T;
  loading : bool;
  error : option string;
}.

(** The argument of [useState]. *)
Definition initialState : UseApiState :=
  {| data := None; loading := true; error := None |}.

(** [fetchData] up to its [await]:
    [setState(prev => ({ ...prev, loading: true, error: null }))]. *)
Definition fetchData_begin (prev : UseApiState) : UseApiState :=
  {| data := data prev; loading := true; error := None |}.

(** [fetchData] after its [await]: the state it writes.  The previous
    state is not consulted. *)
Definition fetchData_settle (outcome : Settled T) : UseApiState :=
  match outcome with
  | Resolved d => {| data := Some d; loading := false; error := None |}
  | Rejected e =>
      {| data := None; loading := false; error := Some (errorMessage e) |}
  end.

(** [clearError] *)
Definition clearError (prev : UseApiState) : UseApiState :=
  {| data := data prev; loading := loading prev; error := None |}.

(** A mounted hook: its React state, the number of [fetchData] calls
    made so far (calls are numbered from 0 in the order they start) and
    the calls suspended at [await apiCall()]. *)
Record Hook := mkHook {
  state : UseApiState;
  started : nat;
  inFlight : list nat;
}.

Inductive Event :=
| CallFetchData
| ApiCallSettles (call : nat) (outcome : Settled T)
| CallClearError.

Definition step (h : Hook) (ev : Event) : Hook :=
  match ev with
  | CallFetchData =>
      {| state := fetchData_begin (state h);
         started := S (started h);
         inFlight := inFlight h ++ [started h] |}
  | ApiCallSettles call outcome =>
      if bool_decide (call ∈ inFlight h) then
        {| state := fetchData_settle outcome;
           started := started h;
           inFlight := filter (λ c, c ≠ call) (inFlight h) |}
      else h
  | CallClearError =>
      {| state := clearError (state h);
         started := started h;
         inFlight := inFlight h |}
  end.

Definition run (h : Hook) (events : list Event) : Hook :=
  foldl step h events.

(** The hook after its first render: the effect has called
    [fetchData] once. *)
Definition mounted : Hook :=
  step {| state := initialState; started := 0; inFlight := [] |} CallFetchData.

End Generic.
Arguments UseApiState : clear implicits.
Arguments Hook : clear implicits.
Arguments Event : clear implicits.

End UseApi.

(** ** hooks/useApi.ts: the paginated accumulator *)

Module Page.
(** What [fetchFunction] resolves with. *)
Record t (T : Type) := mk {
  data : list T;
  total : Z;
  has_next : bool;
}.
Arguments mk {T}.
Arguments data {T}.
Arguments total {T}.
Arguments has_next {T}.
End Page.

Module UsePaginatedData.
Import Js.

Section Items.
Context {T Id : Type} `{Countable Id}.

(** [item.id] *)
Variable id : T → Id.

Record State := mkState {
  allData : list T;
  currentPage : Z;
  hasNextPage : bool;
  loading : bool;
  error : option string;
  total : Z;
}.

(** The arguments of the six [useState] calls. *)
Definition initialState : State :=
  {| allData := []; currentPage := 1; hasNextPage := false;
     loading := false; error := None; total := 0 |}.

(** The updater passed to [setAllData] when appending. *)
Definition appendPage (prev : list T) (page : list T) : list T :=
  let newIds : gset Id := list_to_set (id <$> prev) in
  let newItems := filter (λ item, id item ∉ newIds) page in
  prev ++ newItems.

(** [loadPage] up to its [await]. *)
Definition loadPage_begin (st : State) : State :=
  {| allData := allData st; currentPage := currentPage st;
     hasNextPage := hasNextPage st; loading := true; error := None;
     total := total st |}.

(** [loadPage] after its [await], [finally] block included. *)
Definition loadPage_settle (page : Z) (append : bool)
    (outcome : Settled (Page.t T)) (st : State) : State :=
  match outcome with
  | Resolved response =>
      {| allData := if append then appendPage (allData st) (Page.data response)
                    else Page.data response;
         currentPage := page;
         hasNextPage := Page.has_next response;
         loading := false;
         error := error st;
         total := Page.total response |}
  | Rejected e =>
      {| allData := allData st; currentPage := currentPage st;
         hasNextPage := hasNextPage st; loading := false;
         error := Some (UseApi.errorMessage e); total := total st |}
  end.

(** [loadMore]: the page it asks [fetchFunction] for, if any.  The call
    itself writes no state. *)
Definition loadMore (st : State) : option Z :=
  if hasNextPage st && negb (loading st) then Some (currentPage st + 1)
  else None.

(** The [then] and [catch] callbacks of [loadMore]. *)
Definition loadMore_settle (nextPage : Z) (outcome : Settled (Page.t T))
    (st : State) : State :=
  match outcome with
  | Resolved response =>
      {| allData := appendPage (allData st) (Page.data response);
         currentPage := nextPage;
         hasNextPage := Page.has_next response;
         loading := loading st;
         error := error st;
         total := Page.total response |}
  | Rejected e =>
      {| allData := allData st; currentPage := currentPage st;
         hasNextPage := hasNextPage st; loading := loading st;
         error := Some (UseApi.errorMessage e); total := total st |}
  end.

(** A call of [fetchFunction] and who made it. *)
Inductive Request :=
| ByLoadPage (page : Z) (append : bool)
| ByLoadMore (nextPage : Z).

(** A mounted hook: its React state, every [fetchFunction] call issued
    so far (numbered from 0 in order) and the ones not yet settled. *)
Record Hook := mkHook {
  state : State;
  issued : list Request;
  inFlight : list nat;
}.

Inductive Event :=
| CallLoadPage (page : Z) (append : bool)
| CallLoadMore
| CallRefresh
| FetchSettles (request : nat) (outcome : Settled (Page.t T)).

Definition issue (r : Request) (st : State) (h : Hook) : Hook :=
  {| state := st;
     issued := issued h ++ [r];
     inFlight := inFlight h ++ [length (issued h)] |}.

Definition step (h : Hook) (ev : Event) : Hook :=
  match ev with
  | CallLoadPage page append =>
      issue (ByLoadPage page append) (loadPage_begin (state h)) h
  | CallLoadMore =>
      match loadMore (state h) with
      | Some nextPage => issue (ByLoadMore nextPage) (state h) h
      | None => h
      end
  | CallRefresh =>
      let st := state h in
      let cleared :=
        {| allData := []; currentPage := 1; hasNextPage := hasNextPage st;
           loading := loading st; error := error st; total := total st |} in
      issue (ByLoadPage 1 false) (loadPage_begin cleared) h
  | FetchSettles request outcome =>
      if bool_decide (request ∈ inFlight h) then
        match issued h !! request with
        | Some (ByLoadPage page append) =>
            {| state := loadPage_settle page append outcome (state h);
               issued := issued h;
               inFlight := filter (λ r, r ≠ request) (inFlight h) |}
        | Some (ByLoadMore nextPage) =>
            {| state := loadMore_settle nextPage outcome (state h);
               issued := issued h;
               inFlight := filter (λ r, r ≠ request) (inFlight h) |}
        | None => h
        end
      else h
  end.

Definition run (h : Hook) (events : list Event) : Hook :=
  foldl step h events.

(** The hook after its first render: the effect has called
    [loadPage(1, false)]. *)
Definition mounted : Hook :=
  step {| state := initialState; issued := []; inFlight := [] |}
       (CallLoadPage 1 false).

Definition isByLoadMore (r : Request) : bool :=
  match r with ByLoadMore _ => true | ByLoadPage _ _ => false end.

(** The unsettled [fetchFunction] calls that [loadMore] made. *)
Definition loadMoreInFlight (h : Hook) : list nat :=
  filter (λ n, isByLoadMore <$> (issued h !! n) = Some true) (inFlight h).

End Items.
Arguments State : clear implicits.
Arguments Hook : clear implicits.
Arguments Event : clear implicits.

End UsePaginatedData.

(** Items and pages used as concrete inputs below. *)
Module PageScenarios.
Import Js.

Record Item := mkItem { id : Z; name : string }.

(** The accumulator seeded with the items 1 and 2. *)
Definition seeded : UsePaginatedData.State Item :=
  {| UsePaginatedData.allData := [mkItem 1 "one"; mkItem 2 "two"];
     UsePaginatedData.currentPage := 1;
     UsePaginatedData.hasNextPage := true;
     UsePaginatedData.loading := false;
     UsePaginatedData.error := None;
     UsePaginatedData.total := 3 |}.

(** The page that repeats item 2 and brings item 3. *)
Definition secondPage : Page.t Item :=
  {| Page.data := [mkItem 2 "two again"; mkItem 3 "three"];
     Page.total := 3; Page.has_next := false |}.

(** A first page after which more is to come. *)
Definition firstPage : Page.t Item :=
  {| Page.data := [mkItem 1 "one"; mkItem 2 "two"];
     Page.total := 3; Page.has_next := true |}.

(** The hook once its first page has arrived. *)
Definition firstPageLoaded : UsePaginatedData.Hook Item :=
  UsePaginatedData.step id (UsePaginatedData.mounted id)
    (UsePaginatedData.FetchSettles 0 (Resolved firstPage)).

End PageScenarios.

(** ** hooks/useImagePreloader.ts *)

Module UseImagePreloader.

Record PreloadedImage := mkImage {
  src : string;
  loaded : bool;
  error : bool;
}.

(** A call of [processQueue]: suspended at [await preloadImage(src)], or
    returned. *)
Inductive Invocation :=
| Awaiting (src : string)
| Returned.

(** The image loads, as the [processQueue] calls start and finish them
    (calls are numbered from 0 in the order they are made). *)
Inductive LogEntry :=
| LoadStarted (invocation : nat) (src : string)
| LoadSettled (invocation : nat) (src : string).

(** The hook instance: the two React states, the two refs, the
    [processQueue] calls made so far and the history of image loads. *)
Record t := mk {
  preloadedImages : gmap string PreloadedImage;
  isLoading : bool;
  loadingQueue : list string;
  activeLoads : gset string;
  invocations : list Invocation;
  log : list LogEntry;
}.

(** The hook before its first effect. *)
Definition initial : t :=
  {| preloadedImages := ∅; isLoading := false; loadingQueue := [];
     activeLoads := ∅; invocations := []; log := [] |}.

Section Options.
(** [maxConcurrent]; the [priority] option only sets [img.loading]. *)
Variable maxConcurrent : Z.

(** The [while] loop of [processQueue] from its head up to its next
    [await] or its exit: the queue left, and the key to load if the
    loop stopped at the [await]. *)
Fixpoint drainLoop (queue : list string) (active : gset string)
    : list string * option string :=
  match queue with
  | [] => ([], None)
  | src :: rest =>
      if bool_decide (Z.of_nat (size active) < maxConcurrent) then
        if String.eqb src "" || bool_decide (src ∈ active)
        then drainLoop rest active
        else (rest, Some src)
      else (queue, None)
  end.

(** Call number [i] of [processQueue], run from the head of its loop
    up to its next [await] or to its return. *)
Definition runLoop (i : nat) (st : t) : t :=
  match drainLoop (loadingQueue st) (activeLoads st) with
  | (queue, Some src) =>
      {| preloadedImages := preloadedImages st;
         isLoading := isLoading st;
         loadingQueue := queue;
         activeLoads := {[ src ]} ∪ activeLoads st;
         invocations := <[i := Awaiting src]> (invocations st);
         log := log st ++ [LoadStarted i src] |}
  | (queue, None) =>
      {| preloadedImages := preloadedImages st;
         isLoading :=
           if bool_decide (size (activeLoads st) = 0%nat ∧ queue = [])
           then false else isLoading st;
         loadingQueue := queue;
         activeLoads := activeLoads st;
         invocations := <[i := Returned]> (invocations st);
         log := log st |}
  end.

(** The updater that [startPreloading] passes to
    [setPreloadedImages]. *)
Definition initImages (newSrcs : list string)
    (prev : gmap string PreloadedImage) : gmap string PreloadedImage :=
  foldl (λ updated src,
           match updated !! src with
           | Some _ => updated
           | None => <[src := {| src := src; loaded := false; error := false |}]> updated
           end) prev newSrcs.

(** [startPreloading(srcs)], called through a closure in which
    [preloadedImages] is [seen]: the map of the render that made the
    closure, which [preloadImage] may have changed since by its in-place
    [prev.set].  What a closure sees is left to the caller of the step. *)
Definition startPreloading (seen : gmap string PreloadedImage)
    (srcs : list string) (st : t) : t :=
  let newSrcs := filter (λ src, seen !! src = None) srcs in
  match newSrcs with
  | [] => st
  | _ =>
      runLoop (length (invocations st))
        {| preloadedImages := initImages newSrcs (preloadedImages st);
           isLoading := true;
           loadingQueue := loadingQueue st ++ newSrcs;
           activeLoads := activeLoads st;
           invocations := invocations st ++ [Returned];
           log := log st |}
  end.

(** The image awaited by call [i] of [processQueue] fires [onload]
    ([success]) or [onerror]; the call resumes in its [finally] block
    and goes round its loop again. *)
Definition imageSettles (i : nat) (success : bool) (st : t) : t :=
  match invocations st !! i with
  | Some (Awaiting src) =>
      runLoop i
        {| preloadedImages :=
             <[src := {| src := src; loaded := success; error := negb success |}]>
               (preloadedImages st);
           isLoading := isLoading st;
           loadingQueue := loadingQueue st;
           activeLoads := activeLoads st ∖ {[ src ]};
           invocations := invocations st;
           log := log st ++ [LoadSettled i src] |}
  | _ => st
  end.

Inductive Event :=
| StartPreloading (seen : gmap string PreloadedImage) (srcs : list string)
| ImageSettles (invocation : nat) (success : bool).

Definition step (st : t) (ev : Event) : t :=
  match ev with
  | StartPreloading seen srcs => startPreloading seen srcs st
  | ImageSettles i success => imageSettles i success st
  end.

Definition run (st : t) (events : list Event) : t :=
  foldl step st events.

End Options.

Definition startsLoadOf (key : string) (e : LogEntry) : bool :=
  match e with
  | LoadStarted _ src => String.eqb src key
  | LoadSettled _ _ => false
  end.

(** How many loads of [key] were started. *)
Definition loadsStarted (key : string) (l : list LogEntry) : nat :=
  length (filter (λ e, startsLoadOf key e = true) l).

(** The keys whose load call [i] of [processQueue] has started and not
    yet seen settle, after the history [l]. *)
Definition pendingOf (i : nat) (l : list LogEntry) : list string :=
  foldl (λ pending e,
           match e with
           | LoadStarted j src =>
               if bool_decide (j = i) then pending ++ [src] else pending
           | LoadSettled j src =>
               if bool_decide (j = i) then filter (λ s, s ≠ src) pending
               else pending
           end) [] l.

(** The refs, the suspended calls and the history agree: a call has
    started and not seen settle exactly the load it awaits, the active
    set holds exactly the awaited keys, no key is awaited twice, and at
    no point of the history had a call two loads under way. *)
Record consistent (st : t) : Prop := mkConsistent {
  consistent_pending : ∀ i,
    pendingOf i (log st)
    = match invocations st !! i with
      | Some (Awaiting src) => [src]
      | _ => []
      end;
  consistent_active : ∀ src,
    src ∈ activeLoads st ↔ ∃ i, invocations st !! i = Some (Awaiting src);
  consistent_unique : ∀ i j src,
    invocations st !! i = Some (Awaiting src) →
    invocations st !! j = Some (Awaiting src) → i = j;
  consistent_history : ∀ n i,
    (length (pendingOf i (take n (log st))) ≤ 1)%nat;
}.

(** [getImageStatus] *)
Definition getImageStatus (src : string) (st : t) : PreloadedImage :=
  default {| src := src; loaded := false; error := false |}
          (preloadedImages st !! src).

(** [isImageLoaded] *)
Definition isImageLoaded (src : string) (st : t) : bool :=
  default false (loaded <$> preloadedImages st !! src).

(** [hasImageError] *)
Definition hasImageError (src : string) (st : t) : bool :=
  default false (error <$> preloadedImages st !! src).

Definition settlesLoadOf (key : string) (e : LogEntry) : bool :=
  match e with
  | LoadStarted _ _ => false
  | LoadSettled _ src => String.eqb src key
  end.

(** How many loads of [key] have settled. *)
Definition loadsSettled (key : string) (l : list LogEntry) : nat :=
  length (filter (λ e, settlesLoadOf key e = true) l).

(** The history matches the active set: the loads of a key that were
    started and have not settled number one when the key is active, none
    otherwise. *)
Definition balanced (st : t) : Prop :=
  ∀ key, loadsStarted key (log st)
         = (loadsSettled key (log st)
            + if bool_decide (key ∈ activeLoads st) then 1 else 0)%nat.

(** The active set respects the number of slots. *)
Definition withinBound (maxConcurrent : Z) (st : t) : Prop :=
  Z.of_nat (size (activeLoads st)) ≤ Z.max 0 maxConcurrent.

(** When [isLoading] is off, nothing is queued and nothing is active. *)
Definition idleWhenNotLoading (st : t) : Prop :=
  isLoading st = false → loadingQueue st = [] ∧ activeLoads st = ∅.

(** The status entries are sound: an entry is filed under its own key
    and is not both loaded and failed. *)
Definition soundStatus (st : t) : Prop :=
  ∀ key img, preloadedImages st !! key = Some img →
             src img = key ∧ (loaded img && error img = false).

End UseImagePreloader.

(** Schedules used as concrete inputs below. *)
Module PreloaderScenarios.
Import UseImagePreloader.

(** One [startPreloading] call that lists a key twice; then the first
    load succeeds. *)
Definition listedTwice : list Event :=
  [StartPreloading ∅ ["a.jpg"; "a.jpg"]; ImageSettles 0 true].

(** Two [startPreloading] calls through the closure of the first
    render, the second one while "x.jpg" is loading and "a.jpg" waits in
    the queue; then "a.jpg" loads before "x.jpg" does. *)
Definition scheduledTwice : list Event :=
  [StartPreloading ∅ ["x.jpg"; "a.jpg"]; StartPreloading ∅ ["a.jpg"];
   ImageSettles 1 true].

(** Four keys scheduled at once, with one load settled. *)
Definition fourKeys : list Event :=
  [StartPreloading ∅ ["a.jpg"; "b.jpg"; "c.jpg"; "d.jpg"];
   ImageSettles 0 true].

(** A key listed twice, loaded twice, everything settled. *)
Definition allSettled : list Event :=
  listedTwice ++ [ImageSettles 0 false].

End PreloaderScenarios.


(** ** services/apiClient.ts, second part: [ApiService], the service
    behind the hooks of useApi.ts *)

Module ApiService.
Import Js.

(** [request] after the URL and the headers are put together.  [net] is
    what the one [fetch] settles to; there is no timer and no second
    attempt.  The [catch] block passes [Error] instances on and replaces
    every other rejection. *)
Definition request (net : Thrown + ApiClient.Response)
    : Thrown + ApiClient.Json :=
  let attempt : Thrown + ApiClient.Json :=
    response ← net;
    if negb (ApiClient.ok response) then
      let errorData : ApiClient.Json :=
        match ApiClient.json response with
        | Resolved data => data
        | Rejected _ =>
            {[ "detail" := "HTTP " +:+ pretty (ApiClient.status response)
                             +:+ ": " +:+ ApiClient.statusText response ]}
        end in
      inl (ThrowError
             (newError (orElse (errorData !! "detail") "An error occurred")))
    else
      match ApiClient.json response with
      | Resolved data => inr data
      | Rejected e => inl e
      end in
  match attempt with
  | inr data => inr data
  | inl (ThrowError error) => inl (ThrowError error)
  | inl ThrowOther => inl (ThrowError (newError "Network error occurred"))
  end.

(** What a promise of [request] settles to, as [useApi] awaits it. *)
Definition settled {A} (outcome : Thrown + A) : Settled A :=
  match outcome with
  | inr value => Resolved value
  | inl reason => Rejected reason
  end.

End ApiService.

(** ** hooks/useErrorHandler.ts: error notifications *)

Module UseErrorHandler.

Record ErrorState := mkErrorState {
  message : string;
  code : option string;
  timestamp : Z;
}.

(** [\d] *)
Definition isDigit (c : Ascii.ascii) : bool :=
  ((48 <=? Ascii.N_of_ascii c) && (Ascii.N_of_ascii c <=? 57))%N.

(** The longest run of digits at the start of [s]: what [\d+] takes. *)
Fixpoint digits (s : string) : string :=
  match s with
  | String c rest => if isDigit c then String c (digits rest) else EmptyString
  | EmptyString => EmptyString
  end.

(** [s] without its prefix [p], when it starts with [p]. *)
Fixpoint afterPrefix (p s : string) : option string :=
  match p, s with
  | EmptyString, _ => Some s
  | String a p', String b s' =>
      if Ascii.eqb a b then afterPrefix p' s' else None
  | String _ _, EmptyString => None
  end.

(** The match of [/HTTP (\d+)/] that starts at the first character of
    [s]: its group 1. *)
Definition matchHere (s : string) : option string :=
  match afterPrefix "HTTP " s with
  | Some rest =>
      let d := digits rest in
      if String.eqb d "" then None else Some d
  | None => None
  end.

(** [s.match(/HTTP (\d+)/)]: group 1 of the leftmost match. *)
Fixpoint matchHttp (s : string) : option string :=
  match matchHere s with
  | Some d => Some d
  | None =>
      match s with
      | String _ rest => matchHttp rest
      | EmptyString => None
      end
  end.

(** The [switch (code)] of [handleApiError]: [message] is kept for a
    code without a case. *)
Definition friendlyMessage (code message : string) : string :=
  if String.eqb code "400" then "Invalid request. Please check your input."
  else if String.eqb code "401" then "Authentication required. Please log in."
  else if String.eqb code "403" then
    "Access denied. You don't have permission for this action."
  else if String.eqb code "404" then "The requested resource was not found."
  else if String.eqb code "429" then
    "Too many requests. Please wait a moment and try again."
  else if String.eqb code "500" then "Server error. Please try again later."
  else if String.eqb code "503" then
    "Service temporarily unavailable. Please try again later."
  else message.

(** [showError]: the state that [setError] installs at time [now]. *)
Definition showError (message : string) (code : option string) (now : Z)
    : ErrorState :=
  {| message := message; code := code; timestamp := now |}.

(** [handleApiError] *)
Definition handleApiError (error : Js.Thrown) (now : Z) : ErrorState :=
  match error with
  | Js.ThrowOther => showError "An unexpected error occurred" None now
  | Js.ThrowError e =>
      let '(message, code) :=
        if Js.includes (Js.message e) "HTTP" then
          match matchHttp (Js.message e) with
          | Some code => (friendlyMessage code (Js.message e), Some code)
          | None => (Js.message e, None)
          end
        else (Js.message e, None) in
      if String.eqb (Js.name e) "AbortError" then
        showError
          "Request timed out. Please check your connection and try again."
          (Some "TIMEOUT") now
      else if Js.includes (Js.message e) "fetch" then
        showError "Network error. Please check your connection."
                  (Some "NETWORK") now
      else showError message code now
  end.

End UseErrorHandler.

(** ** hooks/useErrorHandler.ts: [useRetry] *)

Module UseRetry.
Import Js.

(** The options are integers; [Math.pow] is exact on them. *)
Record Options := mkOptions {
  maxRetries : Z;
  initialDelay : Z;
  maxDelay : Z;
  backoffFactor : Z;
}.

(** [useRetry()] *)
Definition defaults : Options :=
  {| maxRetries := 3; initialDelay := 1000; maxDelay := 10000;
     backoffFactor := 2 |}.

Record State := mkState {
  isRetrying : bool;
  retryCount : Z;
}.

Definition initialState : State :=
  {| isRetrying := false; retryCount := 0 |}.

(** Observable effects of [retry], in order: call number [n] of [fn]
    (from 0), and the sleeps. *)
Inductive Event :=
| Call (n : nat)
| Sleep (ms : Z).



Definition sleeps (trace : list Event) : list Z :=
  omap (λ ev, match ev with Sleep ms => Some ms | Call _ => None end) trace.

Section Retry.
Context {T : Type}.
Variable options : Options.

(** What call number [n] of [fn] settles to. *)
Variable fn : nat → Thrown + T.

(** [Math.min(initialDelay * Math.pow(backoffFactor, currentRetryCount - 1),
    maxDelay)] *)
Definition delay (currentRetryCount : Z) : Z :=
  Z.min (initialDelay options * backoffFactor options ^ (currentRetryCount - 1))
        (maxDelay options).

(** [while (currentRetryCount <= maxRetries)]: [remaining] is the number
    of iterations left, [Z.to_nat (maxRetries + 1 - currentRetryCount)]. *)
Fixpoint retryLoop (remaining : nat) (currentRetryCount : Z)
    (lastError : option Error) (st : State)
    : (Thrown + T) * State * list Event :=
  match remaining with
  | O =>
      (inl (ApiClient.throwLast lastError),
       {| isRetrying := false; retryCount := retryCount st |}, [])
  | S remaining' =>
      let n := Z.to_nat currentRetryCount in
      match fn n with
      | inr result =>
          (inr result, {| isRetrying := false; retryCount := 0 |}, [Call n])
      | inl error =>
          let lastError := ApiClient.asError error in
          let currentRetryCount := currentRetryCount + 1 in
          let st := {| isRetrying := isRetrying st;
                       retryCount := currentRetryCount |} in
          if maxRetries options <? currentRetryCount then
            (inl (ThrowError lastError),
             {| isRetrying := false; retryCount := retryCount st |}, [Call n])
          else
            let '(outcome, st', trace) :=
              retryLoop remaining' currentRetryCount (Some lastError) st in
            (outcome, st', Call n :: Sleep (delay currentRetryCount) :: trace)
      end
  end.

(** [retry(fn)] *)
Definition retry (st : State) : (Thrown + T) * State * list Event :=
  retryLoop (Z.to_nat (maxRetries options + 1)) 0 None
            {| isRetrying := true; retryCount := retryCount st |}.

End Retry.

(** [resetRetry] *)
Definition resetRetry (st : State) : State :=
  {| isRetrying := false; retryCount := 0 |}.

End UseRetry.

(** ** unnamed/part_000: [useVirtualScroll] *)

Module UseVirtualScroll.

(** Heights and scroll offsets are whole pixels. *)
Record Options := mkOptions {
  itemHeight : Z;
  containerHeight : Z;
  overscan : option Z;
}.

Record Result := mkResult {
  visibleRange : Z * Z;
  totalHeight : Z;
  offsetY : Z;
}.

(** [Math.floor(a / b)]; for [b = 0] the quotient is no number. *)
Definition floorDiv (a b : Z) : option Z :=
  if decide (b = 0) then None else Some (a `div` b).

(** One render of the hook over [items] at scroll offset [scrollTop];
    [None] when an index is no number. *)
Definition useVirtualScroll {T} (items : list T) (options : Options)
    (scrollTop : Z) : option Result :=
  let overscan := default 5 (overscan options) in
  first ← floorDiv scrollTop (itemHeight options);
  last ← floorDiv (scrollTop + containerHeight options) (itemHeight options);
  let startIndex := Z.max 0 (first - overscan) in
  let endIndex := Z.min (Z.of_nat (length items) - 1) (last + overscan) in
  Some {| visibleRange := (startIndex, endIndex);
          totalHeight := Z.of_nat (length items) * itemHeight options;
          offsetY := startIndex * itemHeight options |}.

End UseVirtualScroll.

(** Inputs for the notification, retry and scrolling hooks. *)
Module HookScenarios.
Import Js.

(** Two failures, then a value. *)
Definition flaky : nat → Thrown + string :=
  λ n, if (n <? 2)%nat then inl (ThrowError (newError "Failed to fetch"))
       else inr "ok".

(** A call that never succeeds. *)
Definition broken : nat → Thrown + string :=
  λ n, inl (ThrowError (newError "Failed to fetch")).

(** [{ maxRetries: 5, initialDelay: 1000, maxDelay: 4000 }] *)
Definition capped : UseRetry.Options :=
  {| UseRetry.maxRetries := 5; UseRetry.initialDelay := 1000;
     UseRetry.maxDelay := 4000; UseRetry.backoffFactor := 2 |}.

(** Rows of 100 px in a window of 450 px, two rows of overscan. *)
Definition rows : UseVirtualScroll.Options :=
  {| UseVirtualScroll.itemHeight := 100;
     UseVirtualScroll.containerHeight := 450;
     UseVirtualScroll.overscan := Some 2 |}.

(** A thousand items. *)
Definition thousand : list nat := seq 0 1000.

End HookScenarios.

(** * Properties *)

(** ** The request client *)

Section ApiClientFacts.
Import Js ApiClient.

Variable abortMessage : string.
Variable handler : Z → string → RequestConfig.t → NetOutcome.
Variable client : ApiClient.t.

Local Abbreviation tryOnce := (ApiClient.tryOnce abortMessage handler client).
Local Abbreviation retryLoop := (ApiClient.retryLoop abortMessage handler client).

Lemma retryLoop_S url cfg retries retryDelay n attempt lastError :
  retryLoop url cfg retries retryDelay (S n) attempt lastError
  = match tryOnce url cfg attempt with
    | inr result => (inr result, [Fetch url cfg])
    | inl error =>
        if notRetried (asError error) then
          (inl (ThrowError (asError error)), [Fetch url cfg])
        else if attempt =? retries then
          (inl (ThrowError (asError error)), [Fetch url cfg])
        else
          let '(outcome, trace) :=
            retryLoop url cfg retries retryDelay n (attempt + 1)
                      (Some (asError error)) in
          (outcome, Fetch url cfg :: Sleep (retryDelay * 2 ^ attempt) :: trace)
    end.
Proof. reflexivity. Qed.

Lemma attempts_backoff url cfg retryDelay n attempt :
  attempts (backoff url cfg retryDelay n attempt) = S n.
Proof.
  revert attempt. induction n as [|n IH]; intros attempt; [done|].
  cbn [backoff]. unfold attempts in *.
  rewrite filter_cons_True by done. rewrite filter_cons_False by done.
  cbn [length]. by rewrite IH.
Qed.

Lemma sleeps_backoff url cfg retryDelay n attempt :
  sleeps (backoff url cfg retryDelay n attempt)
  = (λ a : nat, retryDelay * 2 ^ (attempt + Z.of_nat a)) <$> seq 0 n.
Proof.
  revert attempt. induction n as [|n IH]; intros attempt; [done|].
  cbn [backoff seq fmap list_fmap]. unfold sleeps in *. cbn [omap list_omap].
  rewrite IH, Z.add_0_r. f_equal.
  rewrite <- fmap_S_seq, <- list_fmap_compose.
  apply list_fmap_ext. intros _ a _. cbn. do 2 f_equal. lia.
Qed.

Lemma fetches_backoff url cfg retryDelay n attempt e :
  e ∈ backoff url cfg retryDelay n attempt →
  isFetch e = true → e = Fetch url cfg.
Proof.
  revert attempt. induction n as [|n IH]; intros attempt; cbn [backoff].
  - by intros ->%list_elem_of_singleton.
  - intros [->|[->|Hin]%elem_of_cons]%elem_of_cons; [done|done|]. eauto.
Qed.

(** A failure that the [catch] block does not single out is retried
    until the attempt index reaches [retries]; the failure of that last
    attempt is the one thrown. *)
Lemma retryLoop_exhausts url cfg retries retryDelay (failure : Z → Thrown) :
  ∀ (n : nat) (attempt : Z) (lastError : option Error),
    retries = attempt + Z.of_nat n →
    (∀ a, attempt ≤ a ≤ retries →
          tryOnce url cfg a = inl (failure a)
          ∧ notRetried (asError (failure a)) = false) →
    retryLoop url cfg retries retryDelay (S n) attempt lastError
    = (inl (ThrowError (asError (failure retries))),
       backoff url cfg retryDelay n attempt).
Proof.
  induction n as [|n IH]; intros attempt lastError Hr Hfail.
  - destruct (Hfail attempt ltac:(lia)) as [Htry Hnot].
    rewrite retryLoop_S, Htry, Hnot.
    assert (attempt = retries) as -> by lia.
    by rewrite Z.eqb_refl.
  - destruct (Hfail attempt ltac:(lia)) as [Htry Hnot].
    rewrite retryLoop_S, Htry, Hnot.
    destruct (Z.eqb_spec attempt retries) as [->|_]; [lia|].
    rewrite (IH (attempt + 1) (Some (asError (failure attempt))));
      [done|lia|].
    intros a Ha. apply Hfail. lia.
Qed.

(** A failure that the [catch] block singles out ends the loop at the
    attempt where it occurs. *)
Lemma retryLoop_not_retried url cfg retries retryDelay n attempt lastError e :
  tryOnce url cfg attempt = inl e →
  notRetried (asError e) = true →
  retryLoop url cfg retries retryDelay (S n) attempt lastError
  = (inl (ThrowError (asError e)), [Fetch url cfg]).
Proof.
  intros Htry Hnot. by rewrite retryLoop_S, Htry, Hnot.
Qed.

(** [k] retried failures followed by one that is not retried. *)
Lemma retryLoop_stops_at url cfg retries retryDelay (failure : Z → Thrown) :
  ∀ (k n : nat) (attempt : Z) (lastError : option Error),
    attempt + Z.of_nat k ≤ retries →
    (k ≤ n)%nat →
    (∀ a, attempt ≤ a < attempt + Z.of_nat k →
          tryOnce url cfg a = inl (failure a)
          ∧ notRetried (asError (failure a)) = false) →
    tryOnce url cfg (attempt + Z.of_nat k) = inl (failure (attempt + Z.of_nat k)) →
    notRetried (asError (failure (attempt + Z.of_nat k))) = true →
    ∃ trace,
      retryLoop url cfg retries retryDelay (S n) attempt lastError
      = (inl (ThrowError (asError (failure (attempt + Z.of_nat k)))), trace)
      ∧ attempts trace = S k
      ∧ last trace = Some (Fetch url cfg).
Proof.
  induction k as [|k IH]; intros n attempt lastError Hk Hn Hfail Hlast Hstop.
  - rewrite Z.add_0_r in *. exists [Fetch url cfg].
    by rewrite (retryLoop_not_retried _ _ _ _ _ _ _ _ Hlast Hstop).
  - destruct n as [|n]; [lia|].
    destruct (Hfail attempt ltac:(lia)) as [Htry Hnot].
    destruct (IH n (attempt + 1) (Some (asError (failure attempt))))
      as (trace & Hloop & Hcount & Hend).
    + lia.
    + lia.
    + intros a Ha. apply Hfail. lia.
    + by replace (attempt + 1 + Z.of_nat k) with (attempt + Z.of_nat (S k)) by lia.
    + by replace (attempt + 1 + Z.of_nat k) with (attempt + Z.of_nat (S k)) by lia.
    + exists (Fetch url cfg :: Sleep (retryDelay * 2 ^ attempt) :: trace).
      split; [|split].
      * rewrite retryLoop_S, Htry, Hnot.
        destruct (Z.eqb_spec attempt retries) as [->|_]; [lia|].
        rewrite Hloop.
        by replace (attempt + 1 + Z.of_nat k) with (attempt + Z.of_nat (S k)) by lia.
      * unfold attempts in *.
        rewrite filter_cons_True by done. rewrite filter_cons_False by done.
        cbn [length]. by rewrite Hcount.
      * destruct trace as [|ev trace]; [done|]. exact Hend.
Qed.

Lemma tryOnce_timeout url cfg attempt :
  timerFiresFirst client cfg (handler attempt url cfg) →
  tryOnce url cfg attempt = inl (ThrowError (abortError abortMessage)).
Proof.
  unfold ApiClient.tryOnce, requestWithTimeout, timerFiresFirst.
  destruct (handler attempt url cfg) as [after result|]; [|done].
  intros Hlt. by apply Z.ltb_lt in Hlt as ->.
Qed.

Lemma notRetried_abortError : notRetried (abortError abortMessage) = true.
Proof. reflexivity. Qed.

(** A response that is not ok makes the [try] block throw an error with
    the [detail] of the body as its message, when the body has one. *)
Lemma handleResponse_not_ok response :
  ok response = false →
  handleResponse response
  = inl (ThrowError (newError (failureMessage response))).
Proof.
  intros Hok. unfold handleResponse, failureMessage. rewrite Hok. cbn [negb].
  destruct ((400 <=? status response) && (status response <? 500));
    destruct (json response); by rewrite ?lookup_singleton_eq.
Qed.

(** An attempt that the handler answers in time, with no response
    interceptor registered. *)
Lemma tryOnce_answered url cfg attempt after response :
  handler attempt url cfg = Settles after (inr response) →
  after ≤ default (ApiClientConfig.timeout (ApiClient.config client))
                  (RequestConfig.timeout cfg) →
  responseInterceptors client = [] →
  tryOnce url cfg attempt = handleResponse response.
Proof.
  intros Hnet Htime Hnone.
  unfold ApiClient.tryOnce, requestWithTimeout. rewrite Hnet, Hnone.
  by replace (_ <? after) with false by (symmetry; apply Z.ltb_ge; lia).
Qed.

(** Failures that the [catch] block does not single out are retried
    [retries] times with doubling delays over the one merged
    configuration, and the last failure is thrown. *)
Lemma requestWithRetry_exhausts endpoint config (failure : Z → Thrown) :
  let retries := default (ApiClientConfig.retries (ApiClient.config client))
                         (RequestConfig.retries config) in
  let retryDelay := default (ApiClientConfig.retryDelay (ApiClient.config client))
                            (RequestConfig.retryDelay config) in
  let url := ApiClientConfig.baseUrl (ApiClient.config client) +:+ endpoint in
  let cfg := mergeConfig client config in
  0 ≤ retries →
  (∀ a, 0 ≤ a ≤ retries →
        tryOnce url cfg a = inl (failure a)
        ∧ notRetried (asError (failure a)) = false) →
  requestWithRetry abortMessage handler client endpoint config
  = (inl (ThrowError (asError (failure retries))),
     backoff url cfg retryDelay (Z.to_nat retries) 0).
Proof.
  intros retries retryDelay url cfg Hr Hfail. unfold requestWithRetry.
  fold retries retryDelay url cfg.
  replace (Z.to_nat (retries + 1)) with (S (Z.to_nat retries)) by lia.
  apply (retryLoop_exhausts url cfg retries retryDelay failure); [lia|done].
Qed.

End ApiClientFacts.

(** C4.  When the timer of [requestWithTimeout] fires before the network
    call of some attempt settles, [requestWithRetry] throws the abort
    error of that attempt and makes no further attempt, whatever the retry
    count: after [k] retried failures and a timeout at attempt [k], exactly
    [k + 1] calls were made and the trace ends with the call that timed
    out. *)
Theorem requestWithRetry_timeout_terminal
    (abortMessage : string)
    (handler : Z → string → RequestConfig.t → ApiClient.NetOutcome)
    (client : ApiClient.t) (endpoint : string) (config : RequestConfig.t)
    (k : nat) (failure : Z → Js.Thrown) :
  let retries := default (ApiClientConfig.retries (ApiClient.config client))
                         (RequestConfig.retries config) in
  let url := ApiClientConfig.baseUrl (ApiClient.config client) +:+ endpoint in
  let cfg := ApiClient.mergeConfig client config in
  Z.of_nat k ≤ retries →
  (∀ a, 0 ≤ a < Z.of_nat k →
        ApiClient.tryOnce abortMessage handler client url cfg a = inl (failure a)
        ∧ ApiClient.notRetried (ApiClient.asError (failure a)) = false) →
  ApiClient.timerFiresFirst client cfg (handler (Z.of_nat k) url cfg) →
  ∃ trace,
    ApiClient.requestWithRetry abortMessage handler client endpoint config
    = (inl (Js.ThrowError (ApiClient.abortError abortMessage)), trace)
    ∧ ApiClient.attempts trace = S k
    ∧ last trace = Some (ApiClient.Fetch url cfg).
Proof.
  intros retries url cfg Hk Hfail Htimeout.
  pose (failure' := λ a, if a =? Z.of_nat k
                         then Js.ThrowError (ApiClient.abortError abortMessage)
                         else failure a).
  destruct (retryLoop_stops_at abortMessage handler client url cfg retries
              (default (ApiClientConfig.retryDelay (ApiClient.config client))
                       (RequestConfig.retryDelay config))
              failure' k (Z.to_nat retries) 0 None)
    as (trace & Hloop & Hcount & Hend).
  - lia.
  - lia.
  - intros a Ha. unfold failure'.
    destruct (Z.eqb_spec a (Z.of_nat k)); [lia|]. apply Hfail. lia.
  - unfold failure'. cbn [Z.add]. rewrite Z.eqb_refl.
    by apply tryOnce_timeout.
  - unfold failure'. cbn [Z.add]. by rewrite Z.eqb_refl.
  - exists trace. unfold ApiClient.requestWithRetry. fold retries url cfg.
    replace (Z.to_nat (retries + 1)) with (S (Z.to_nat retries)) by lia.
    rewrite Hloop. unfold failure'. cbn [Z.add]. by rewrite Z.eqb_refl.
Qed.

Lemma requestWithRetry_timeout_terminal_witness :
  ∃ trace,
    ApiClient.requestWithRetry "The operation was aborted."
      ApiScenarios.failsThenHangs ApiClient.new "/health" ApiScenarios.shortTimeout
    = (inl (Js.ThrowError (ApiClient.abortError "The operation was aborted.")), trace)
    ∧ ApiClient.attempts trace = 2%nat
    ∧ last trace
      = Some (ApiClient.Fetch "http://localhost:8000/health"
                (ApiClient.mergeConfig ApiClient.new ApiScenarios.shortTimeout)).
Proof.
  apply (requestWithRetry_timeout_terminal "The operation was aborted."
           ApiScenarios.failsThenHangs ApiClient.new "/health"
           ApiScenarios.shortTimeout 1
           (λ _, Js.ThrowError (Js.newError "Database is starting up"))).
  - cbn. lia.
  - intros a Ha. assert (a = 0) as -> by lia. split; reflexivity.
  - exact I.
Defined.

(** C1.  The code retries a 4xx response whose error message does not
    contain the text "Client error".  With [retries = 2], a handler that
    answers 404 with the structured body [{ detail: "Person not found" }] is
    called three times, with the two backoff delays in between, and so is
    one that answers 404 with a body that is not JSON (message
    "HTTP 404: Not Found"). *)
Theorem requestWithRetry_retries_404 (abortMessage : string) :
  let structured :=
    ApiClient.requestWithRetry abortMessage (ApiScenarios.always ApiScenarios.notFound)
      ApiClient.new "/api/persons/42" ApiScenarios.twoRetries in
  let plain :=
    ApiClient.requestWithRetry abortMessage (ApiScenarios.always ApiScenarios.notFoundPlain)
      ApiClient.new "/api/persons/42" ApiScenarios.twoRetries in
  structured.1 = inl (Js.ThrowError (Js.newError "Person not found"))
  ∧ ApiClient.attempts structured.2 = 3%nat
  ∧ ApiClient.sleeps structured.2 = [1000; 2000]
  ∧ plain.1 = inl (Js.ThrowError (Js.newError "HTTP 404: Not Found"))
  ∧ ApiClient.attempts plain.2 = 3%nat
  ∧ ApiClient.sleeps plain.2 = [1000; 2000].
Proof. vm_compute. repeat split; reflexivity. Qed.

(** Only a 4xx response without a usable [detail] gets the message that
    the [catch] block looks for, and is the one that is not retried. *)
Lemma requestWithRetry_404_without_detail (abortMessage : string) :
  let outcome :=
    ApiClient.requestWithRetry abortMessage
      (ApiScenarios.always ApiScenarios.notFoundNoDetail)
      ApiClient.new "/api/persons/42" ApiScenarios.twoRetries in
  outcome.1 = inl (Js.ThrowError (Js.newError "Client error occurred"))
  ∧ ApiClient.attempts outcome.2 = 1%nat.
Proof. vm_compute. split; reflexivity. Qed.

(** C3.  The code does not retry a server failure whose message contains
    the text "Client error".  With [retries = 2], a handler that always
    answers 503 with such a [detail] is called once and no delay is slept. *)
Theorem requestWithRetry_503_not_retried (abortMessage : string) :
  let outcome :=
    ApiClient.requestWithRetry abortMessage
      (ApiScenarios.always ApiScenarios.upstreamFailed)
      ApiClient.new "/api/photos/42" ApiScenarios.twoRetries in
  outcome.1 = inl (Js.ThrowError (Js.newError
      "Client error '404 Not Found' for url 'http://storage/thumbs/42'"))
  ∧ ApiClient.attempts outcome.2 = 1%nat
  ∧ ApiClient.sleeps outcome.2 = [].
Proof. vm_compute. repeat split; reflexivity. Qed.

(** For every other failure the retry schedule is the one intended for
    server failures: a handler that always answers in time with a response
    that is not ok and whose message lacks that text is called
    [retries + 1] times with the one merged configuration, the delay before
    re-attempt [a] is [retryDelay * 2^a], and the failure of the last
    attempt is thrown.  The status plays no part: a 4xx response is
    retried like a 5xx response. *)
Lemma requestWithRetry_failure_schedule
    (abortMessage : string)
    (handler : Z → string → RequestConfig.t → ApiClient.NetOutcome)
    (client : ApiClient.t) (endpoint : string) (config : RequestConfig.t)
    (response : Z → ApiClient.Response) (after : Z → Z) :
  let retries := default (ApiClientConfig.retries (ApiClient.config client))
                         (RequestConfig.retries config) in
  let retryDelay := default (ApiClientConfig.retryDelay (ApiClient.config client))
                            (RequestConfig.retryDelay config) in
  let url := ApiClientConfig.baseUrl (ApiClient.config client) +:+ endpoint in
  let cfg := ApiClient.mergeConfig client config in
  0 ≤ retries →
  ApiClient.responseInterceptors client = [] →
  (∀ a, 0 ≤ a ≤ retries →
        handler a url cfg = ApiClient.Settles (after a) (inr (response a))
        ∧ after a ≤ default (ApiClientConfig.timeout (ApiClient.config client))
                            (RequestConfig.timeout cfg)
        ∧ ApiClient.ok (response a) = false
        ∧ Js.includes (ApiClient.failureMessage (response a)) "Client error"
          = false) →
  let outcome := ApiClient.requestWithRetry abortMessage handler client endpoint config in
  outcome.1
  = inl (Js.ThrowError (Js.newError (ApiClient.failureMessage (response retries))))
  ∧ ApiClient.attempts outcome.2 = S (Z.to_nat retries)
  ∧ ApiClient.sleeps outcome.2
    = (λ a : nat, retryDelay * 2 ^ Z.of_nat a) <$> seq 0 (Z.to_nat retries)
  ∧ (∀ e, e ∈ outcome.2 → ApiClient.isFetch e = true → e = ApiClient.Fetch url cfg).
Proof.
  intros retries retryDelay url cfg Hr Hnone Hhandler outcome.
  pose (failure := λ a, Js.newError (ApiClient.failureMessage (response a))).
  assert (outcome = (inl (Js.ThrowError (failure retries)),
                     ApiClient.backoff url cfg retryDelay (Z.to_nat retries) 0))
    as ->.
  { subst outcome.
    rewrite (requestWithRetry_exhausts abortMessage handler client endpoint config
               (λ a, Js.ThrowError (failure a))); [done|done|].
    intros a Ha. fold url cfg.
    destruct (Hhandler a Ha) as (Hnet & Htime & Hok & Hmsg).
    split; [|exact Hmsg].
    rewrite (tryOnce_answered _ _ _ _ _ _ _ _ Hnet Htime Hnone).
    by apply handleResponse_not_ok. }
  cbn [fst snd]. split; [done|]. split; [apply attempts_backoff|].
  split; [|intros e; apply fetches_backoff].
  rewrite sleeps_backoff. apply list_fmap_ext. intros _ a _. by rewrite Z.add_0_l.
Qed.

(** A response that is not ok and whose message has that text ends the
    request at the attempt that receives it, whatever its status. *)
Lemma requestWithRetry_marked_failure
    (abortMessage : string)
    (handler : Z → string → RequestConfig.t → ApiClient.NetOutcome)
    (client : ApiClient.t) (endpoint : string) (config : RequestConfig.t)
    (response : ApiClient.Response) (after : Z) :
  let retries := default (ApiClientConfig.retries (ApiClient.config client))
                         (RequestConfig.retries config) in
  let url := ApiClientConfig.baseUrl (ApiClient.config client) +:+ endpoint in
  let cfg := ApiClient.mergeConfig client config in
  0 ≤ retries →
  ApiClient.responseInterceptors client = [] →
  handler 0 url cfg = ApiClient.Settles after (inr response) →
  after ≤ default (ApiClientConfig.timeout (ApiClient.config client))
                  (RequestConfig.timeout cfg) →
  ApiClient.ok response = false →
  Js.includes (ApiClient.failureMessage response) "Client error" = true →
  ApiClient.requestWithRetry abortMessage handler client endpoint config
  = (inl (Js.ThrowError (Js.newError (ApiClient.failureMessage response))),
     [ApiClient.Fetch url cfg]).
Proof.
  intros retries url cfg Hr Hnone Hnet Htime Hok Hmsg.
  unfold ApiClient.requestWithRetry. fold retries url cfg.
  replace (Z.to_nat (retries + 1)) with (S (Z.to_nat retries)) by lia.
  rewrite (retryLoop_not_retried abortMessage handler client url cfg retries _ _ 0 None
             (Js.ThrowError (Js.newError (ApiClient.failureMessage response))));
    [done| |].
  - rewrite (tryOnce_answered _ _ _ _ _ _ _ _ Hnet Htime Hnone).
    by apply handleResponse_not_ok.
  - unfold ApiClient.notRetried, ApiClient.asError, Js.newError.
    cbn [Js.message]. rewrite Hmsg. apply orb_true_r.
Qed.

(** The example of the spec: with [retries = 2], a handler that always
    answers 503 is called three times, after delays of 1000 and 2000 ms. *)
Lemma requestWithRetry_503_retried (abortMessage : string) :
  let outcome :=
    ApiClient.requestWithRetry abortMessage
      (ApiScenarios.always ApiScenarios.unavailable)
      ApiClient.new "/api/photos/42" ApiScenarios.twoRetries in
  outcome.1 = inl (Js.ThrowError (Js.newError "Database is starting up"))
  ∧ ApiClient.attempts outcome.2 = 3%nat
  ∧ ApiClient.sleeps outcome.2 = [1000; 2000].
Proof.
  destruct (requestWithRetry_failure_schedule abortMessage
              (ApiScenarios.always ApiScenarios.unavailable)
              ApiClient.new "/api/photos/42" ApiScenarios.twoRetries
              (λ _, ApiScenarios.unavailable) (λ _, 25))
    as (Hthrown & Hattempts & Hsleeps & _).
  - cbn. lia.
  - reflexivity.
  - intros a _. split; [reflexivity|]. split; [cbn; lia|].
    split; [cbn; lia|reflexivity].
  - split; [exact Hthrown|]. split; [exact Hattempts|exact Hsleeps].
Qed.

(** ** The cache *)

Section JsMapFacts.
Context {V : Type}.
Implicit Types (m : JsMap.t V) (key : string) (value : V).

Lemma JsMap_get_Some_elem key value m :
  JsMap.get key m = Some value → (key, value) ∈ m.
Proof.
  induction m as [|[k v] m IH]; cbn; [done|].
  destruct (String.eqb_spec k key) as [->|_].
  - intros [= ->]. left.
  - intros. right. auto.
Qed.

Lemma JsMap_get_None key m :
  JsMap.get key m = None ↔ key ∉ JsMap.keys m.
Proof.
  unfold JsMap.keys. induction m as [|[k v] m IH]; cbn.
  - split; [intros _; apply not_elem_of_nil|done].
  - rewrite not_elem_of_cons.
    destruct (String.eqb_spec k key) as [->|Hne].
    + split; [done|]. intros [Hk _]. by destruct Hk.
    + rewrite IH. split; [|by intros [_ ?]]. intros ?. split; [|done].
      by intros ->.
Qed.

Lemma JsMap_get_set_eq key value m :
  JsMap.get key (JsMap.set key value m) = Some value.
Proof.
  induction m as [|[k v] m IH]; cbn.
  - by rewrite String.eqb_refl.
  - destruct (String.eqb_spec k key) as [->|Hne]; cbn.
    + by rewrite String.eqb_refl.
    + by destruct (String.eqb_spec k key).
Qed.

Lemma JsMap_get_set_ne key key' value m :
  key ≠ key' → JsMap.get key' (JsMap.set key value m) = JsMap.get key' m.
Proof.
  intros Hne. induction m as [|[k v] m IH]; cbn.
  - by destruct (String.eqb_spec key key').
  - destruct (String.eqb_spec k key) as [->|Hk]; cbn.
    + by destruct (String.eqb_spec key key').
    + by rewrite IH.
Qed.

Lemma JsMap_keys_set key value m :
  JsMap.keys (JsMap.set key value m)
  = if JsMap.has key m then JsMap.keys m else JsMap.keys m ++ [key].
Proof.
  unfold JsMap.keys, JsMap.has. induction m as [|[k v] m IH]; cbn; [done|].
  destruct (String.eqb_spec k key) as [->|Hk]; cbn; [done|].
  rewrite IH. by destruct (JsMap.get key m).
Qed.

Lemma JsMap_set_NoDup key value m :
  NoDup (JsMap.keys m) → NoDup (JsMap.keys (JsMap.set key value m)).
Proof.
  intros Hm. rewrite JsMap_keys_set. unfold JsMap.has.
  destruct (JsMap.get key m) eqn:Hget; [done|].
  apply NoDup_app. split; [done|]. split; [|apply NoDup_singleton].
  intros k Hk ->%list_elem_of_singleton. by apply JsMap_get_None in Hget.
Qed.

Lemma JsMap_size_set key value m :
  JsMap.size (JsMap.set key value m)
  = if JsMap.has key m then JsMap.size m else JsMap.size m + 1.
Proof.
  unfold JsMap.size.
  rewrite <- (length_fmap fst (JsMap.set key value m)), <- (length_fmap fst m).
  fold (JsMap.keys (JsMap.set key value m)). fold (JsMap.keys m).
  rewrite JsMap_keys_set. destruct (JsMap.has key m); [done|].
  rewrite length_app. cbn. lia.
Qed.

Lemma JsMap_keys_delete_subseteq key m :
  JsMap.keys (JsMap.delete key m) ⊆ JsMap.keys m.
Proof.
  unfold JsMap.keys. induction m as [|[k v] m IH]; cbn; [done|].
  destruct (String.eqb_spec k key); cbn.
  - intros x Hx. by right.
  - intros x [->|Hx]%elem_of_cons; [left|right; by apply IH].
Qed.

Lemma JsMap_delete_NoDup key m :
  NoDup (JsMap.keys m) → NoDup (JsMap.keys (JsMap.delete key m)).
Proof.
  unfold JsMap.keys. induction m as [|[k v] m IH]; cbn; [done|].
  intros [Hk Hm]%NoDup_cons.
  destruct (String.eqb_spec k key); cbn; [done|].
  apply NoDup_cons. split; [|auto].
  intros Hin. apply Hk. by apply (JsMap_keys_delete_subseteq key m).
Qed.

Lemma JsMap_get_delete_eq key m :
  NoDup (JsMap.keys m) → JsMap.get key (JsMap.delete key m) = None.
Proof.
  unfold JsMap.keys. induction m as [|[k v] m IH]; cbn; [done|].
  intros [Hk Hm]%NoDup_cons.
  destruct (String.eqb_spec k key) as [->|Hne]; cbn.
  - by apply JsMap_get_None.
  - destruct (String.eqb_spec k key); [done|]. auto.
Qed.

Lemma JsMap_get_delete_ne key key' m :
  key ≠ key' → JsMap.get key' (JsMap.delete key m) = JsMap.get key' m.
Proof.
  intros Hne. induction m as [|[k v] m IH]; cbn; [done|].
  destruct (String.eqb_spec k key) as [->|Hk]; cbn.
  - by destruct (String.eqb_spec key key').
  - by rewrite IH.
Qed.

Lemma JsMap_size_delete key value m :
  JsMap.get key m = Some value →
  JsMap.size (JsMap.delete key m) = JsMap.size m - 1.
Proof.
  unfold JsMap.size. induction m as [|[k v] m IH]; cbn [JsMap.get JsMap.delete]; [done|].
  destruct (String.eqb_spec k key) as [->|Hne]; cbn [length].
  - lia.
  - intros Hget. specialize (IH Hget). lia.
Qed.

End JsMapFacts.

Section CacheFacts.
Import CacheService.
Context {T : Type}.
Implicit Types (c : CacheService.t T) (item : CacheItem T).

Lemma new_wellFormed : wellFormed (CacheService.new (T:=T)).
Proof. apply NoDup_nil_2. Qed.

Lemma evictOldest_wellFormed now c : wellFormed c → wellFormed (evictOldest now c).
Proof.
  unfold wellFormed, evictOldest. intros Hc.
  destruct (_ <=? _); [done|]. destruct (String.eqb _ ""); [done|].
  by apply JsMap_delete_NoDup.
Qed.

Lemma set_wellFormed key d options now evictNow writeFails c :
  wellFormed c → wellFormed (set key d options now evictNow writeFails c).
Proof.
  unfold set. intros Hc.
  destruct (default memory (opt_storage options)).
  - apply evictOldest_wellFormed. by apply JsMap_set_NoDup.
  - destruct writeFails; [by apply JsMap_set_NoDup|done].
  - destruct writeFails; [by apply JsMap_set_NoDup|done].
Qed.

Lemma delete_wellFormed key storage c :
  wellFormed c → wellFormed (delete key storage c).
Proof.
  unfold wellFormed. destruct storage; cbn; [|done..].
  apply JsMap_delete_NoDup.
Qed.

Lemma get_wellFormed key storage now c :
  wellFormed c → wellFormed (get key storage now c).2.
Proof.
  unfold get. intros Hc. destruct (readItem key storage c); [|done].
  destruct (isExpired now _); [|done]. by apply delete_wellFormed.
Qed.

Lemma getStorageKey_prefixed key :
  String.prefix "photo_gallery_cache_" (getStorageKey key) = true.
Proof. vm_compute. by destruct key. Qed.

Lemma countPrefixed_delete key (s : gmap string (option (CacheItem T))) :
  is_Some (s !! getStorageKey key) →
  countPrefixed (base.delete (getStorageKey key) s) = countPrefixed s - 1.
Proof.
  intros [x Hx]. unfold countPrefixed.
  rewrite map_filter_delete, map_size_delete.
  erewrite map_lookup_filter_Some_2; [|done|apply getStorageKey_prefixed].
  assert (base.size (filter (λ kv : string * option (CacheItem T),
            String.prefix "photo_gallery_cache_" kv.1 = true) s) ≠ 0%nat).
  { apply map_size_ne_0_lookup_2 with (getStorageKey key). exists x.
    apply map_lookup_filter_Some_2; [done|apply getStorageKey_prefixed]. }
  lia.
Qed.

Lemma readItem_delete key storage c :
  wellFormed c → readItem key storage (delete key storage c) = None.
Proof.
  intros Hc. destruct storage; cbn.
  - by apply JsMap_get_delete_eq.
  - by rewrite lookup_delete_eq.
  - by rewrite lookup_delete_eq.
Qed.

Lemma size_delete key storage c item :
  readItem key storage c = Some item →
  size storage (delete key storage c) = size storage c - 1.
Proof.
  destruct storage; cbn.
  - apply JsMap_size_delete.
  - intros Hread. apply countPrefixed_delete.
    destruct (window_localStorage c !! getStorageKey key); [done|discriminate].
  - intros Hread. apply countPrefixed_delete.
    destruct (window_sessionStorage c !! getStorageKey key); [done|discriminate].
Qed.

(** What [set] leaves under the key in the backend it was asked to write
    to, when the write succeeds and the eviction does not pick the key. *)
Lemma set_then_readItem key d options now evictNow c :
  let storage := default memory (opt_storage options) in
  let c' := set key d options now evictNow false c in
  (storage = memory → JsMap.size (memoryCache c) < maxSize c) →
  readItem key storage c'
  = Some {| data := d; timestamp := now;
            ttl := default (defaultTTL c) (opt_ttl options); key := key |}.
Proof.
  intros storage c' Hroom. subst c'. unfold set. fold storage.
  destruct storage; cbn.
  - unfold evictOldest. cbn.
    replace (_ <=? maxSize c) with true; [cbn; apply JsMap_get_set_eq|].
    symmetry. apply Z.leb_le. specialize (Hroom eq_refl).
    rewrite JsMap_size_set. destruct (JsMap.has key _); lia.
  - by rewrite lookup_insert_eq.
  - by rewrite lookup_insert_eq.
Qed.

(** When the [setItem] of a persistent backend throws, the entry is
    written to the memory backend instead, under the same key. *)
Lemma set_fallback_readItem key d options now evictNow c :
  opt_storage options = Some localStorage
  ∨ opt_storage options = Some sessionStorage →
  readItem key memory (set key d options now evictNow true c)
  = Some {| data := d; timestamp := now;
            ttl := default (defaultTTL c) (opt_ttl options); key := key |}.
Proof.
  unfold set. intros [-> | ->]; cbn; apply JsMap_get_set_eq.
Qed.

End CacheFacts.

(** C5.  An entry that a backend holds under a key, written at
    [timestamp] with time-to-live [ttl], is returned by [get] at every
    [now] with [now - timestamp <= ttl]; at every later [now], [get]
    returns null, deletes the entry from the backend it queried, and the
    size of that backend drops by one. *)
Theorem get_honours_ttl {T : Type} (c : CacheService.t T) (key : string)
    (storage : CacheService.Storage) (item : CacheService.CacheItem T) (now : Z) :
  CacheService.wellFormed c →
  CacheService.readItem key storage c = Some item →
  (now - CacheService.timestamp item ≤ CacheService.ttl item →
     CacheService.get key storage now c = (Some (CacheService.data item), c))
  ∧ (CacheService.ttl item < now - CacheService.timestamp item →
     let c' := (CacheService.get key storage now c).2 in
     (CacheService.get key storage now c).1 = None
     ∧ CacheService.readItem key storage c' = None
     ∧ CacheService.size storage c' = CacheService.size storage c - 1).
Proof.
  intros Hc Hread. unfold CacheService.get. rewrite Hread.
  unfold CacheService.isExpired. split; intros Hage.
  - by replace (_ <? _) with false by (symmetry; apply Z.ltb_ge; lia).
  - replace (_ <? _) with true by (symmetry; apply Z.ltb_lt; lia).
    cbn [fst snd]. split; [done|]. split.
    + by apply readItem_delete.
    + by apply size_delete with item.
Qed.

Lemma get_honours_ttl_witness :
  CacheService.get "a" CacheService.memory 50 CacheScenarios.oneEntry
  = (Some 1, CacheScenarios.oneEntry)
  ∧ (CacheService.get "a" CacheService.memory 150 CacheScenarios.oneEntry).1 = None
  ∧ CacheService.size CacheService.memory
      (CacheService.get "a" CacheService.memory 150 CacheScenarios.oneEntry).2 = 0.
Proof.
  assert (CacheService.wellFormed CacheScenarios.oneEntry) as Hwf.
  { apply set_wellFormed, new_wellFormed. }
  assert (CacheService.readItem "a" CacheService.memory CacheScenarios.oneEntry
          = Some {| CacheService.data := 1; CacheService.timestamp := 0;
                    CacheService.ttl := 100; CacheService.key := "a" |}) as Hread.
  { reflexivity. }
  split.
  - apply (get_honours_ttl _ _ _ _ 50 Hwf Hread). cbn. lia.
  - destruct (get_honours_ttl _ _ _ _ 150 Hwf Hread) as [_ Hlate].
    destruct Hlate as (Hnull & _ & Hsize); [cbn; lia|].
    split; [exact Hnull|]. rewrite Hsize. reflexivity.
Defined.

Section EvictionFacts.
Import CacheService.
Context {T : Type}.
Implicit Types (c : CacheService.t T) (m : JsMap.t (CacheItem T)).

(** What the [forEach] of [evictOldest] computes from a start value
    [(k0, ts0)]: either no entry is older than [ts0], or the first of the
    entries with the smallest timestamp. *)
Lemma fold_oldestStep m (k0 : string) (ts0 : Z) :
  let result := fold_left oldestStep m (k0, ts0) in
  (∀ e, e ∈ m → result.2 ≤ timestamp e.2)
  ∧ ((result = (k0, ts0) ∧ ∀ e, e ∈ m → ts0 ≤ timestamp e.2)
     ∨ (∃ before item after,
          m = before ++ (result.1, item) :: after
          ∧ timestamp item = result.2
          ∧ result.2 < ts0
          ∧ ∀ e, e ∈ before → result.2 < timestamp e.2)).
Proof.
  revert k0 ts0. induction m as [|[k item] m IH]; intros k0 ts0; cbn.
  - split; [by intros e ?%elem_of_nil|]. left. split; [done|].
    by intros e ?%elem_of_nil.
  - assert (oldestStep (k0, ts0) (k, item)
            = if timestamp item <? ts0 then (k, timestamp item) else (k0, ts0))
      as -> by done.
    destruct (Z.ltb_spec (timestamp item) ts0) as [Hlt|Hge].
    + destruct (IH k (timestamp item)) as [Hmin Hcase]. split.
      * intros e [->|He]%elem_of_cons; [|by apply Hmin]. cbn.
        destruct Hcase as [[-> _]|(b & i & a & _ & _ & ? & _)]; cbn; lia.
      * right. destruct Hcase as [[Heq Hall]|(b & i & a & Hm & Hts & Hlt' & Hb)].
        -- exists [], item, m. rewrite Heq. cbn. split; [done|].
           split; [done|]. split; [done|]. by intros e ?%elem_of_nil.
        -- exists ((k, item) :: b), i, a. split; [by rewrite Hm at 1|].
           split; [done|]. split; [lia|].
           intros e [->|He]%elem_of_cons; [cbn; lia|by apply Hb].
    + destruct (IH k0 ts0) as [Hmin Hcase]. split.
      * intros e [->|He]%elem_of_cons; [|by apply Hmin]. cbn.
        destruct Hcase as [[-> _]|(b & i & a & _ & _ & ? & _)]; cbn; lia.
      * destruct Hcase as [[Heq Hall]|(b & i & a & Hm & Hts & Hlt' & Hb)].
        -- left. split; [done|].
           intros e [->|He]%elem_of_cons; [done|by apply Hall].
        -- right. exists ((k, item) :: b), i, a. split; [by rewrite Hm at 1|].
           split; [done|]. split; [done|].
           intros e [->|He]%elem_of_cons; [cbn; lia|by apply Hb].
Qed.

(** When the memory cache is over its ceiling and holds an entry older
    than the clock, [evictOldest] picks the first of the entries with
    the smallest timestamp; unless its key is the empty string, that
    entry alone is removed. *)
Lemma evictOldest_removes_oldest now c :
  wellFormed c →
  maxSize c < JsMap.size (memoryCache c) →
  (∃ e, e ∈ memoryCache c ∧ timestamp e.2 < now) →
  let oldestKey := (findOldest now (memoryCache c)).1 in
  ∃ item,
    JsMap.get oldestKey (memoryCache c) = Some item
    ∧ (∀ e, e ∈ memoryCache c → timestamp item ≤ timestamp e.2)
    ∧ (∃ before after,
         memoryCache c = before ++ (oldestKey, item) :: after
         ∧ ∀ e, e ∈ before → timestamp item < timestamp e.2)
    ∧ (oldestKey ≠ "" →
         memoryCache (evictOldest now c) = JsMap.delete oldestKey (memoryCache c)
         ∧ JsMap.get oldestKey (memoryCache (evictOldest now c)) = None
         ∧ JsMap.size (memoryCache (evictOldest now c))
           = JsMap.size (memoryCache c) - 1
         ∧ ∀ key', key' ≠ oldestKey →
             JsMap.get key' (memoryCache (evictOldest now c))
             = JsMap.get key' (memoryCache c)).
Proof.
  intros Hwf Hover (e & He & Hold) oldestKey.
  destruct (fold_oldestStep (memoryCache c) "" now) as [Hmin Hcase].
  destruct Hcase as [[_ Hall]|(b & item & a & Hm & Hts & Hlt & Hb)].
  { specialize (Hall e He). lia. }
  fold (findOldest now (memoryCache c)) in *. fold oldestKey in Hm.
  assert (JsMap.get oldestKey (memoryCache c) = Some item) as Hget.
  { unfold wellFormed, JsMap.keys in Hwf. rewrite Hm in Hwf |- *.
    clear -Hwf. induction b as [|[k v] b IH]; cbn.
    - by rewrite String.eqb_refl.
    - cbn in Hwf. apply NoDup_cons in Hwf as [Hk Hb].
      destruct (String.eqb_spec k oldestKey) as [->|_]; [|auto].
      destruct Hk. rewrite fmap_app. apply elem_of_app. right. left. }
  exists item. split; [done|]. split.
  { intros e' He'. rewrite Hts. by apply Hmin. }
  split.
  { exists b, a. split; [done|]. intros e' He'. rewrite Hts. by apply Hb. }
  intros Hkey.
  assert (memoryCache (evictOldest now c) = JsMap.delete oldestKey (memoryCache c))
    as Hevict.
  { unfold evictOldest.
    replace (_ <=? maxSize c) with false by (symmetry; apply Z.leb_gt; lia).
    fold oldestKey. by destruct (String.eqb_spec oldestKey ""). }
  rewrite Hevict. split; [done|]. split; [by apply JsMap_get_delete_eq|].
  split; [by apply JsMap_size_delete with item|].
  intros key' Hne. by apply JsMap_get_delete_ne.
Qed.

End EvictionFacts.

(** On a cache of three entries over a ceiling of two, the entry written
    first in time goes, wherever it stands in the iteration order. *)
Lemma evictOldest_overfull :
  CacheService.memoryCache (CacheService.evictOldest 30 CacheScenarios.overfull)
  = JsMap.delete "a" (CacheService.memoryCache CacheScenarios.overfull)
  ∧ JsMap.size (CacheService.memoryCache
                  (CacheService.evictOldest 30 CacheScenarios.overfull)) = 2.
Proof.
  destruct (evictOldest_removes_oldest 30 CacheScenarios.overfull)
    as (item & _ & _ & _ & Hevict).
  - apply (bool_decide_unpack _). by vm_compute.
  - reflexivity.
  - eexists. split; [left|]. reflexivity.
  - destruct Hevict as (Hmem & _ & Hsize & _); [done|].
    split; [exact Hmem|]. rewrite Hsize. reflexivity.
Qed.

(** C6.  The code does not keep the memory backend at the ceiling.  The
    per-call [maxSize] option is not used: three inserts with
    [{ maxSize: 2 }] leave three entries, the oldest one included.  And the
    ceiling of the instance, 100, is passed when the inserts happen within
    one millisecond: after 101 such inserts the cache holds 101 entries,
    the first one included. *)
Theorem set_exceeds_ceiling :
  CacheService.size CacheService.memory CacheScenarios.threeEntries = 3
  ∧ (CacheService.get "a" CacheService.memory 4 CacheScenarios.threeEntries).1 = Some 1
  ∧ CacheService.size CacheService.memory (CacheScenarios.fill 1000 101) = 101
  ∧ (CacheService.get "k0" CacheService.memory 1000 (CacheScenarios.fill 1000 101)).1
    = Some 0.
Proof. vm_compute. repeat split; reflexivity. Qed.

(** When the 101 inserts are a millisecond apart, the last one evicts the
    first and the cache is back at 100 entries. *)
Lemma set_evicts_first_inserted :
  CacheService.size CacheService.memory (CacheScenarios.fillApart 1000 101) = 100
  ∧ (CacheService.get "k0" CacheService.memory 1100 (CacheScenarios.fillApart 1000 101)).1
    = None
  ∧ (CacheService.get "k1" CacheService.memory 1100 (CacheScenarios.fillApart 1000 101)).1
    = Some 1.
Proof. vm_compute. repeat split; reflexivity. Qed.


(** ** The generic fetch hook *)

Section UseApiFacts.
Import Js UseApi.
Context {T : Type}.
Implicit Types (h : Hook T) (outcome : Settled T).

(** Whatever call settles, the state it writes replaces the state of
    the hook: no call is told apart from a later one. *)
Lemma step_settle_overwrites h call outcome :
  call ∈ inFlight h →
  state (step h (ApiCallSettles call outcome)) = fetchData_settle outcome.
Proof. intros Hin. cbn. by rewrite bool_decide_eq_true_2. Qed.

Lemma step_settle_inFlight h call outcome :
  call ∈ inFlight h →
  inFlight (step h (ApiCallSettles call outcome))
  = filter (λ c, c ≠ call) (inFlight h).
Proof. intros Hin. cbn. by rewrite bool_decide_eq_true_2. Qed.

End UseApiFacts.

(** C2, counterexample.  The effect starts fetch A (call 0), a refetch
    starts fetch B (call 1), B resolves with "B" and then A resolves with
    "A": the hook ends with A's data, not with the state of B's result. *)
Lemma useApi_stale_result_overwrites :
  let h := UseApi.run UseApi.mounted
             [UseApi.CallFetchData;
              UseApi.ApiCallSettles 1 (Js.Resolved "B");
              UseApi.ApiCallSettles 0 (Js.Resolved "A")] in
  UseApi.data (UseApi.state h) = Some "A"
  ∧ UseApi.state h ≠ UseApi.fetchData_settle (Js.Resolved "B").
Proof. split; [reflexivity|discriminate]. Qed.

(** C2, amended.  When fetch A is started, then fetch B, and A settles
    after B, the final state of the hook is the one written for A's
    outcome: the settlement that comes last wins, whichever call it
    belongs to. *)
Theorem useApi_last_settlement_wins {T : Type} (h : UseApi.Hook T)
    (a b : Js.Settled T) :
  let A := UseApi.started h in
  let B := S (UseApi.started h) in
  UseApi.state
    (UseApi.run h [UseApi.CallFetchData; UseApi.CallFetchData;
                   UseApi.ApiCallSettles B b; UseApi.ApiCallSettles A a])
  = UseApi.fetchData_settle a.
Proof.
  intros A B. unfold UseApi.run. cbn [foldl].
  apply step_settle_overwrites. rewrite step_settle_inFlight; cbn.
  - apply list_elem_of_filter. split; [subst A B; lia|].
    rewrite <- app_assoc. apply elem_of_app. right. left.
  - rewrite <- app_assoc. apply elem_of_app. right. right. left.
Qed.

(** ** The paginated accumulator *)

Section PaginatedFacts.
Import Js UsePaginatedData.
Context {T Id : Type} `{Countable Id}.
Variable id : T → Id.
Implicit Types (st : State T) (h : Hook T).

Lemma appendPage_filter (prev page : list T) :
  appendPage id prev page
  = prev ++ filter (λ item, id item ∉ id <$> prev) page.
Proof.
  unfold appendPage. f_equal. apply list_filter_iff.
  intros item. by rewrite elem_of_list_to_set.
Qed.

(** [loadMore] does nothing when no next page is known or when
    [loading] is set. *)
Lemma loadMore_guard h :
  hasNextPage (state h) = false ∨ loading (state h) = true →
  step id h CallLoadMore = h.
Proof. cbn. unfold loadMore. by intros [->| ->]; rewrite ?andb_false_r. Qed.

(** Otherwise it asks for the page after the current one, and writes no
    state: [loading] is as it was. *)
Lemma loadMore_issues h :
  hasNextPage (state h) = true → loading (state h) = false →
  step id h CallLoadMore
  = {| state := state h;
       issued := issued h ++ [ByLoadMore (currentPage (state h) + 1)];
       inFlight := inFlight h ++ [length (issued h)] |}.
Proof. cbn. unfold loadMore. by intros -> ->. Qed.

End PaginatedFacts.

(** C7.  A page that arrives for [loadPage] with [append = false] replaces
    the accumulated items; with [append = true] the accumulated items stay
    as they are, in order, and are followed by the items of the page whose
    id is not among theirs, in the order of the page.  Items 1 and 2
    appended with a page of items 2 and 3 give items 1, 2 and 3. *)
Theorem loadPage_replaces_or_merges :
  (∀ (T Id : Type) `(Countable Id) (id : T → Id)
     (st : UsePaginatedData.State T) (page : Z) (response : Page.t T),
     UsePaginatedData.allData
       (UsePaginatedData.loadPage_settle id page false (Js.Resolved response) st)
     = Page.data response
     ∧ UsePaginatedData.allData
         (UsePaginatedData.loadPage_settle id page true (Js.Resolved response) st)
       = UsePaginatedData.allData st
         ++ filter (λ item, id item ∉ id <$> UsePaginatedData.allData st)
                   (Page.data response))
  ∧ UsePaginatedData.allData
      (UsePaginatedData.loadPage_settle PageScenarios.id 2 true
         (Js.Resolved PageScenarios.secondPage) PageScenarios.seeded)
    = [PageScenarios.mkItem 1 "one"; PageScenarios.mkItem 2 "two";
       PageScenarios.mkItem 3 "three"].
Proof.
  split; [|by vm_compute].
  intros T Id ? ? id st page response. split; [done|]. cbn.
  apply appendPage_filter.
Qed.

(** C8.  The code lets two [loadMore] calls through when the second comes
    before the fetch of the first settles: [loadMore] never sets
    [loading].  After the first page arrived with [has_next], two calls of
    [loadMore] leave two of its fetches in flight, both for page 2. *)
Theorem loadMore_twice_fetches_twice :
  let h := UsePaginatedData.run PageScenarios.id PageScenarios.firstPageLoaded
             [UsePaginatedData.CallLoadMore; UsePaginatedData.CallLoadMore] in
  UsePaginatedData.issued h
  = [UsePaginatedData.ByLoadPage 1 false;
     UsePaginatedData.ByLoadMore 2; UsePaginatedData.ByLoadMore 2]
  ∧ UsePaginatedData.loadMoreInFlight h = [1%nat; 2%nat]
  ∧ UsePaginatedData.loading (UsePaginatedData.state h) = false.
Proof. vm_compute. repeat split; reflexivity. Qed.


(** ** The preloader *)

Section PreloaderFacts.
Import UseImagePreloader.
Variable maxConcurrent : Z.
Implicit Types (st : UseImagePreloader.t) (src : string).

Lemma pendingOf_snoc i (l : list LogEntry) (e : LogEntry) :
  pendingOf i (l ++ [e])
  = match e with
    | LoadStarted j src =>
        if bool_decide (j = i) then pendingOf i l ++ [src] else pendingOf i l
    | LoadSettled j src =>
        if bool_decide (j = i) then filter (λ s, s ≠ src) (pendingOf i l)
        else pendingOf i l
    end.
Proof. unfold pendingOf. by rewrite foldl_snoc. Qed.

(** The loop stops at its [await] only with a key that is not active. *)
Lemma drainLoop_Some queue (active : gset string) queue' src :
  drainLoop maxConcurrent queue active = (queue', Some src) →
  (src ∉ active) ∧ (src ≠ "").
Proof.
  induction queue as [|s queue IH]; cbn; [done|].
  case_bool_decide; [|done].
  destruct (String.eqb_spec s "") as [->|Hne]; cbn; [done|].
  case_bool_decide; [done|]. by intros [= _ <-].
Qed.

Lemma history_snoc (l : list LogEntry) (e : LogEntry) :
  (∀ n i, (length (pendingOf i (take n l)) ≤ 1)%nat) →
  (∀ i, (length (pendingOf i (l ++ [e])) ≤ 1)%nat) →
  ∀ n i, (length (pendingOf i (take n (l ++ [e]))) ≤ 1)%nat.
Proof.
  intros Hl Hle n i. destruct (decide (n ≤ length l)%nat) as [Hn|Hn].
  - rewrite take_app_le by done. apply Hl.
  - rewrite take_ge; [apply Hle|]. rewrite length_app. cbn. lia.
Qed.

Lemma awaited_at_most_one (invs : list Invocation) i :
  (length (match invs !! i with
           | Some (Awaiting src) => [src]
           | _ => []
           end) ≤ 1)%nat.
Proof. by destruct (invs !! i) as [[src|]|]; cbn; lia. Qed.

Lemma runLoop_consistent i st :
  invocations st !! i = Some Returned →
  consistent st → consistent (runLoop maxConcurrent i st).
Proof.
  intros Hi [Hpending Hactive Hunique Hhistory]. unfold runLoop.
  assert (i < length (invocations st))%nat as Hlen
    by (apply lookup_lt_is_Some; eauto).
  destruct (drainLoop maxConcurrent (loadingQueue st) (activeLoads st))
    as [queue [src|]] eqn:Hdrain.
  - apply drainLoop_Some in Hdrain as [Hfresh _].
    assert (∀ j, invocations st !! j ≠ Some (Awaiting src)) as Hnone.
    { intros j Hj. apply Hfresh, Hactive. eauto. }
    assert (∀ j, pendingOf j (log st ++ [LoadStarted i src])
                 = match <[i := Awaiting src]> (invocations st) !! j with
                   | Some (Awaiting s) => [s]
                   | _ => []
                   end) as Hpending'.
    { intros j. rewrite pendingOf_snoc, Hpending.
      case_bool_decide as Hj.
      - subst j. by rewrite Hi, list_lookup_insert_eq.
      - by rewrite list_lookup_insert_ne. }
    split; cbn [log invocations activeLoads].
    + exact Hpending'.
    + intros s. rewrite elem_of_union, elem_of_singleton, Hactive. split.
      * intros [->|[j Hj]].
        -- exists i. by rewrite list_lookup_insert_eq.
        -- exists j. rewrite list_lookup_insert_ne; [done|]. intros ->. congruence.
      * intros [j Hj]. destruct (decide (i = j)) as [<-|Hne].
        -- rewrite list_lookup_insert_eq in Hj by done. left. congruence.
        -- rewrite list_lookup_insert_ne in Hj by done. eauto.
    + intros j k s Hj Hk.
      destruct (decide (i = j)) as [<-|Hj'], (decide (i = k)) as [<-|Hk'];
        [done|..].
      * rewrite list_lookup_insert_eq in Hj by done.
        rewrite list_lookup_insert_ne in Hk by done.
        injection Hj as <-. by destruct (Hnone k).
      * rewrite list_lookup_insert_eq in Hk by done.
        rewrite list_lookup_insert_ne in Hj by done.
        injection Hk as <-. by destruct (Hnone j).
      * rewrite list_lookup_insert_ne in Hj, Hk by done. eauto.
    + apply history_snoc; [done|]. intros j. rewrite Hpending'.
      apply awaited_at_most_one.
  - split; cbn [log invocations activeLoads].
    + intros j. rewrite Hpending. destruct (decide (i = j)) as [<-|Hne].
      * by rewrite Hi, list_lookup_insert_eq.
      * by rewrite list_lookup_insert_ne.
    + intros s. rewrite Hactive. split; intros [j Hj]; exists j.
      * rewrite list_lookup_insert_ne; [done|]. intros ->. congruence.
      * destruct (decide (i = j)) as [<-|Hne].
        -- by rewrite list_lookup_insert_eq in Hj.
        -- by rewrite list_lookup_insert_ne in Hj.
    + intros j k s Hj Hk.
      destruct (decide (i = j)) as [<-|Hj'];
        [by rewrite list_lookup_insert_eq in Hj|].
      destruct (decide (i = k)) as [<-|Hk'];
        [by rewrite list_lookup_insert_eq in Hk|].
      rewrite list_lookup_insert_ne in Hj, Hk by done. eauto.
    + done.
Qed.

Lemma initial_consistent : consistent initial.
Proof.
  split; cbn.
  - done.
  - intros src. split; [by intros ?%not_elem_of_empty|by intros [i ?]].
  - done.
  - intros n i. rewrite take_nil. cbn. lia.
Qed.

Lemma startPreloading_consistent seen srcs st :
  consistent st → consistent (startPreloading maxConcurrent seen srcs st).
Proof.
  intros [Hpending Hactive Hunique Hhistory]. unfold startPreloading.
  destruct (filter _ srcs) as [|s newSrcs]; [done|].
  assert (∀ i src, (invocations st ++ [Returned]) !! i = Some (Awaiting src)
                   ↔ invocations st !! i = Some (Awaiting src)) as Hold.
  { intros i src.
    destruct (decide (i < length (invocations st))%nat) as [Hlt|Hge].
    - by rewrite lookup_app_l.
    - rewrite lookup_app_r, (lookup_ge_None_2 (invocations st)) by lia.
      by destruct (i - length (invocations st))%nat as [|[|n]]. }
  apply runLoop_consistent; cbn [log invocations activeLoads].
  - by rewrite lookup_app_r, Nat.sub_diag.
  - split; cbn [log invocations activeLoads].
    + intros i. rewrite Hpending.
      destruct (decide (i < length (invocations st))%nat) as [Hlt|Hge].
      * by rewrite lookup_app_l.
      * rewrite (lookup_ge_None_2 (invocations st)) by lia.
        rewrite lookup_app_r by lia.
        by destruct (i - length (invocations st))%nat as [|[|n]].
    + intros src. rewrite Hactive. by setoid_rewrite Hold.
    + intros i j src Hi%Hold Hj%Hold. eauto.
    + done.
Qed.

Lemma imageSettles_consistent i success st :
  consistent st → consistent (imageSettles maxConcurrent i success st).
Proof.
  intros [Hpending Hactive Hunique Hhistory]. unfold imageSettles.
  destruct (invocations st !! i) as [[src|]|] eqn:Hi; [|by split..].
  assert (i < length (invocations st))%nat as Hlen
    by (apply lookup_lt_is_Some; eauto).
  match goal with
  | |- consistent (runLoop _ _ ?st') =>
      replace (runLoop maxConcurrent i st')
        with (runLoop maxConcurrent i
                {| preloadedImages := preloadedImages st';
                   isLoading := isLoading st';
                   loadingQueue := loadingQueue st';
                   activeLoads := activeLoads st';
                   invocations := <[i := Returned]> (invocations st');
                   log := log st' |})
  end.
  2: { unfold runLoop. cbn.
       destruct (drainLoop _ _ _) as [queue [src'|]];
         by rewrite list_insert_insert_eq. }
  assert (∀ j, pendingOf j (log st ++ [LoadSettled i src])
               = match <[i := Returned]> (invocations st) !! j with
                 | Some (Awaiting s) => [s]
                 | _ => []
                 end) as Hpending'.
  { intros j. rewrite pendingOf_snoc, Hpending.
    case_bool_decide as Hj.
    - subst j. rewrite Hi, list_lookup_insert_eq by done. cbn.
      by rewrite decide_False by (by intros ?).
    - by rewrite list_lookup_insert_ne. }
  apply runLoop_consistent; cbn [log invocations activeLoads].
  - by rewrite list_lookup_insert_eq.
  - split; cbn [log invocations activeLoads].
    + exact Hpending'.
    + intros s. rewrite elem_of_difference, elem_of_singleton, Hactive. split.
      * intros [[j Hj] Hne]. exists j.
        rewrite list_lookup_insert_ne; [done|]. intros ->. congruence.
      * intros [j Hj]. destruct (decide (i = j)) as [<-|Hne];
          [by rewrite list_lookup_insert_eq in Hj|].
        rewrite list_lookup_insert_ne in Hj by done.
        split; [eauto|]. intros ->. by apply Hne, (Hunique i j src).
    + intros j k s Hj Hk.
      destruct (decide (i = j)) as [<-|Hj'];
        [by rewrite list_lookup_insert_eq in Hj|].
      destruct (decide (i = k)) as [<-|Hk'];
        [by rewrite list_lookup_insert_eq in Hk|].
      rewrite list_lookup_insert_ne in Hj, Hk by done. eauto.
    + apply history_snoc; [done|]. intros j. rewrite Hpending'.
      apply awaited_at_most_one.
Qed.

Lemma run_consistent events :
  ∀ st, consistent st → consistent (run maxConcurrent st events).
Proof.
  induction events as [|ev events IH]; intros st Hst; [done|].
  cbn. apply IH. destruct ev as [seen srcs|i success]; cbn.
  - by apply startPreloading_consistent.
  - by apply imageSettles_consistent.
Qed.

(** No key is being loaded by two calls at once. *)
Lemma no_key_loaded_twice_at_once events i j src :
  let st := run maxConcurrent initial events in
  src ∈ pendingOf i (log st) → src ∈ pendingOf j (log st) → i = j.
Proof.
  intros st. destruct (run_consistent events initial initial_consistent)
    as [Hpending _ Hunique _]. fold st in Hpending, Hunique.
  rewrite !Hpending. intros Hi Hj. apply (Hunique i j src).
  - destruct (invocations st !! i) as [[s|]|]; [|by apply elem_of_nil in Hi..].
    by apply list_elem_of_singleton in Hi as ->.
  - destruct (invocations st !! j) as [[s|]|]; [|by apply elem_of_nil in Hj..].
    by apply list_elem_of_singleton in Hj as ->.
Qed.

(** A call through a closure that has seen every key listed does
    nothing. *)
Lemma startPreloading_seen seen srcs st :
  (∀ src, src ∈ srcs → is_Some (seen !! src)) →
  startPreloading maxConcurrent seen srcs st = st.
Proof.
  intros Hseen. unfold startPreloading.
  replace (filter _ srcs) with (@nil string); [done|].
  symmetry. induction srcs as [|s srcs IH]; [done|].
  rewrite filter_cons_False.
  - apply IH. intros src Hsrc. apply Hseen. by right.
  - destruct (Hseen s) as [x Hx]; [left|]. by rewrite Hx.
Qed.

End PreloaderFacts.

(** C9.  The code loads a key twice when the key is queued twice.  One
    [startPreloading] call that lists "a.jpg" twice starts its load, and
    starts it again once the first load has settled.  So do two calls
    through the same closure when the key waits in the queue at the second
    call and its first load settles before the other call of
    [processQueue] gets to the second copy. *)
Theorem startPreloading_twice_loads_twice :
  UseImagePreloader.log
    (UseImagePreloader.run 3 UseImagePreloader.initial PreloaderScenarios.listedTwice)
  = [UseImagePreloader.LoadStarted 0 "a.jpg"; UseImagePreloader.LoadSettled 0 "a.jpg";
     UseImagePreloader.LoadStarted 0 "a.jpg"]
  ∧ UseImagePreloader.loadsStarted "a.jpg"
      (UseImagePreloader.log
         (UseImagePreloader.run 3 UseImagePreloader.initial
            PreloaderScenarios.scheduledTwice))
    = 2%nat.
Proof. vm_compute. split; reflexivity. Qed.

(** C10.  At every point of the history of every run, whatever
    [maxConcurrent] is and whatever was scheduled, a call of [processQueue]
    has at most one load that it started and has not seen settle: it
    awaits the settlement of the load of one key before it takes the next
    key from the queue. *)
Theorem processQueue_loads_one_at_a_time (maxConcurrent : Z)
    (events : list (UseImagePreloader.Event)) (i n : nat) :
  (length (UseImagePreloader.pendingOf i
     (take n (UseImagePreloader.log
        (UseImagePreloader.run maxConcurrent UseImagePreloader.initial events))))
   ≤ 1)%nat.
Proof.
  pose proof (run_consistent maxConcurrent events UseImagePreloader.initial
                initial_consistent) as Hrun.
  destruct Hrun as [_ _ _ Hhistory]. apply Hhistory.
Qed.

(** With four keys scheduled and [maxConcurrent = 3], the one call of
    [processQueue] loads them one after the other. *)
Lemma processQueue_four_keys :
  let st := UseImagePreloader.run 3 UseImagePreloader.initial
              PreloaderScenarios.fourKeys in
  UseImagePreloader.log st
  = [UseImagePreloader.LoadStarted 0 "a.jpg"; UseImagePreloader.LoadSettled 0 "a.jpg";
     UseImagePreloader.LoadStarted 0 "b.jpg"]
  ∧ UseImagePreloader.loadingQueue st = ["c.jpg"; "d.jpg"]
  ∧ size (UseImagePreloader.activeLoads st) = 1%nat.
Proof. vm_compute. repeat split; reflexivity. Qed.

(** * Further properties *)

(** ** The request client, whatever the handler does *)

Section RequestTraceFacts.
Import Js ApiClient.

Variable abortMessage : string.
Variable handler : Z → string → RequestConfig.t → NetOutcome.
Variable client : ApiClient.t.

Local Abbreviation tryOnce := (ApiClient.tryOnce abortMessage handler client).
Local Abbreviation retryLoop := (ApiClient.retryLoop abortMessage handler client).

Lemma attempts_cons_fetch_sleep url cfg ms trace :
  attempts (Fetch url cfg :: Sleep ms :: trace) = S (attempts trace).
Proof.
  unfold attempts. rewrite filter_cons_True by done.
  by rewrite filter_cons_False by done.
Qed.

(** The shape of every trace of the loop: fetches of the one url and
    configuration, separated by the backoff delays in order. *)
Lemma retryLoop_trace_shape url cfg retries retryDelay :
  ∀ (n : nat) (attempt : Z) (lastError : option Error),
    n = 0%nat ∨ attempt + Z.of_nat n = retries + 1 →
    let trace := (retryLoop url cfg retries retryDelay n attempt lastError).2 in
    (attempts trace ≤ n)%nat
    ∧ (n ≠ 0%nat → (1 ≤ attempts trace)%nat)
    ∧ sleeps trace
      = (λ a : nat, retryDelay * 2 ^ (attempt + Z.of_nat a))
          <$> seq 0 (pred (attempts trace))
    ∧ (∀ e, e ∈ trace → isFetch e = true → e = Fetch url cfg).
Proof.
  induction n as [|n IH]; intros attempt lastError Hfuel; cbn zeta.
  - cbn. split; [done|]. split; [done|]. split; [done|].
    by intros e ?%elem_of_nil.
  - destruct Hfuel as [?|Hfuel]; [done|]. rewrite retryLoop_S.
    assert (∀ (r : Thrown + Result),
              let trace := (r, [Fetch url cfg]).2 in
              (attempts trace ≤ S n)%nat
              ∧ (S n ≠ 0%nat → (1 ≤ attempts trace)%nat)
              ∧ sleeps trace
                = (λ a : nat, retryDelay * 2 ^ (attempt + Z.of_nat a))
                    <$> seq 0 (pred (attempts trace))
              ∧ (∀ e, e ∈ trace → isFetch e = true → e = Fetch url cfg))
      as Hone.
    { intros r. cbn [snd].
      assert (attempts [Fetch url cfg] = 1%nat) as -> by reflexivity.
      split; [lia|]. split; [done|]. split; [done|].
      by intros e ->%list_elem_of_singleton. }
    destruct (tryOnce url cfg attempt) as [error|result]; [|apply Hone].
    destruct (notRetried (asError error)); [apply Hone|].
    destruct (Z.eqb_spec attempt retries) as [|Hne]; [apply Hone|].
    specialize (IH (attempt + 1) (Some (asError error))). cbn zeta in IH.
    destruct (retryLoop url cfg retries retryDelay n (attempt + 1)
                (Some (asError error))) as [outcome trace].
    cbn [snd] in *.
    destruct IH as (Hcount & Hsome & Hsleeps & Hfetch); [right; lia|].
    rewrite attempts_cons_fetch_sleep. split; [lia|]. split; [lia|]. split.
    + unfold sleeps in *. cbn [omap list_omap pred]. rewrite Hsleeps.
      assert (1 ≤ attempts trace)%nat as Hpos by (apply Hsome; lia).
      destruct (attempts trace) as [|m]; [lia|]. cbn [pred seq fmap list_fmap].
      rewrite Z.add_0_r. f_equal.
      rewrite <- fmap_S_seq, <- list_fmap_compose.
      apply list_fmap_ext. intros _ a _. cbn. do 2 f_equal. lia.
    + intros e [->|[->|He]%elem_of_cons]%elem_of_cons; [done|done|]. auto.
Qed.

(** The delays of a request add up to [retryDelay * (2^m - 1)] when [m]
    of them were slept. *)
Lemma sum_backoff_delays (retryDelay : Z) (m : nat) :
  foldr Z.add 0 ((λ a : nat, retryDelay * 2 ^ Z.of_nat a) <$> seq 0 m)
  = retryDelay * (2 ^ Z.of_nat m - 1).
Proof.
  induction m as [|m IH]; [cbn; lia|].
  rewrite seq_S, fmap_app, foldr_app. cbn [fmap list_fmap foldr].
  rewrite Z.add_0_r, Nat.add_0_l.
  assert (∀ (l : list Z) (z : Z), foldr Z.add z l = z + foldr Z.add 0 l) as Hshift.
  { induction l as [|x l IHl]; intros z; cbn; [lia|]. rewrite IHl. lia. }
  rewrite Hshift, IH. rewrite Nat2Z.inj_succ, Z.pow_succ_r by lia. lia.
Qed.

(** A run of retried failures ended by a success. *)
Lemma retryLoop_succeeds_at url cfg retries retryDelay (failure : Z → Thrown)
    (result : Result) :
  ∀ (k n : nat) (attempt : Z) (lastError : option Error),
    attempt + Z.of_nat k ≤ retries →
    (k ≤ n)%nat →
    (∀ a, attempt ≤ a < attempt + Z.of_nat k →
          tryOnce url cfg a = inl (failure a)
          ∧ notRetried (asError (failure a)) = false) →
    tryOnce url cfg (attempt + Z.of_nat k) = inr result →
    ∃ trace,
      retryLoop url cfg retries retryDelay (S n) attempt lastError
      = (inr result, trace)
      ∧ attempts trace = S k.
Proof.
  induction k as [|k IH]; intros n attempt lastError Hk Hn Hfail Hlast.
  - rewrite Z.add_0_r in *. exists [Fetch url cfg].
    by rewrite retryLoop_S, Hlast.
  - destruct n as [|n]; [lia|].
    destruct (Hfail attempt ltac:(lia)) as [Htry Hnot].
    destruct (IH n (attempt + 1) (Some (asError (failure attempt))))
      as (trace & Hloop & Hcount).
    + lia.
    + lia.
    + intros a Ha. apply Hfail. lia.
    + by replace (attempt + 1 + Z.of_nat k) with (attempt + Z.of_nat (S k)) by lia.
    + exists (Fetch url cfg :: Sleep (retryDelay * 2 ^ attempt) :: trace).
      split.
      * rewrite retryLoop_S, Htry, Hnot.
        destruct (Z.eqb_spec attempt retries) as [->|_]; [lia|].
        by rewrite Hloop.
      * by rewrite attempts_cons_fetch_sleep, Hcount.
Qed.

End RequestTraceFacts.


(** X2.  With a negative retry count no network call is made, and what
    the request throws is not an [Error]: it is the [undefined] that
    [lastError] still holds. *)
Theorem requestWithRetry_negative_retries
    (abortMessage : string)
    (handler : Z → string → RequestConfig.t → ApiClient.NetOutcome)
    (client : ApiClient.t) (endpoint : string) (config : RequestConfig.t) :
  default (ApiClientConfig.retries (ApiClient.config client))
          (RequestConfig.retries config) < 0 →
  ApiClient.requestWithRetry abortMessage handler client endpoint config
  = (inl Js.ThrowOther, []).
Proof.
  intros Hneg. unfold ApiClient.requestWithRetry.
  by replace (Z.to_nat (_ + 1)) with 0%nat by lia.
Qed.

Lemma requestWithRetry_negative_retries_witness :
  ApiClient.requestWithRetry "The operation was aborted."
    (ApiScenarios.always ApiScenarios.notFound) ApiClient.new "/health"
    {| RequestConfig.method := Some "GET"; RequestConfig.body := None;
       RequestConfig.headers := ∅; RequestConfig.timeout := None;
       RequestConfig.retries := Some (-1); RequestConfig.retryDelay := None |}
  = (inl Js.ThrowOther, []).
Proof.
  apply requestWithRetry_negative_retries. cbn. lia.
Defined.

(** X3.  When the first [k] attempts fail with failures that are retried
    and attempt [k <= retries] succeeds, the request returns the result of
    that attempt after exactly [k + 1] network calls. *)
Theorem requestWithRetry_recovers
    (abortMessage : string)
    (handler : Z → string → RequestConfig.t → ApiClient.NetOutcome)
    (client : ApiClient.t) (endpoint : string) (config : RequestConfig.t)
    (k : nat) (failure : Z → Js.Thrown) (result : ApiClient.Result) :
  let retries := default (ApiClientConfig.retries (ApiClient.config client))
                         (RequestConfig.retries config) in
  let url := ApiClientConfig.baseUrl (ApiClient.config client) +:+ endpoint in
  let cfg := ApiClient.mergeConfig client config in
  Z.of_nat k ≤ retries →
  (∀ a, 0 ≤ a < Z.of_nat k →
        ApiClient.tryOnce abortMessage handler client url cfg a = inl (failure a)
        ∧ ApiClient.notRetried (ApiClient.asError (failure a)) = false) →
  ApiClient.tryOnce abortMessage handler client url cfg (Z.of_nat k) = inr result →
  let outcome :=
    ApiClient.requestWithRetry abortMessage handler client endpoint config in
  outcome.1 = inr result ∧ ApiClient.attempts outcome.2 = S k.
Proof.
  intros retries url cfg Hk Hfail Hlast outcome.
  destruct (retryLoop_succeeds_at abortMessage handler client url cfg retries
              (default (ApiClientConfig.retryDelay (ApiClient.config client))
                       (RequestConfig.retryDelay config))
              failure result k (Z.to_nat retries) 0 None)
    as (trace & Hloop & Hcount).
  - lia.
  - lia.
  - intros a Ha. apply Hfail. lia.
  - by rewrite Z.add_0_l.
  - subst outcome. unfold ApiClient.requestWithRetry. fold retries url cfg.
    replace (Z.to_nat (retries + 1)) with (S (Z.to_nat retries)) by lia.
    by rewrite Hloop.
Qed.

Lemma requestWithRetry_recovers_witness :
  let outcome :=
    ApiClient.requestWithRetry "The operation was aborted."
      ApiScenarios.failsTwice ApiClient.new "/api/persons" ApiScenarios.twoRetries in
  outcome.1 = inr (ApiClient.Parsed {[ "total" := "0" ]})
  ∧ ApiClient.attempts outcome.2 = 3%nat.
Proof.
  apply (requestWithRetry_recovers "The operation was aborted."
           ApiScenarios.failsTwice ApiClient.new "/api/persons"
           ApiScenarios.twoRetries 2
           (λ _, Js.ThrowError (Js.newError "Database is starting up"))).
  - cbn. lia.
  - intros a Ha. assert (a = 0 ∨ a = 1) as [-> | ->] by lia; split; reflexivity.
  - reflexivity.
Defined.

(** X4.  Whatever the handler does, the time a request spends sleeping
    between its attempts is at most [retryDelay * (2^retries - 1)]. *)
Theorem requestWithRetry_total_sleep_bounded
    (abortMessage : string)
    (handler : Z → string → RequestConfig.t → ApiClient.NetOutcome)
    (client : ApiClient.t) (endpoint : string) (config : RequestConfig.t) :
  let retries := default (ApiClientConfig.retries (ApiClient.config client))
                         (RequestConfig.retries config) in
  let retryDelay := default (ApiClientConfig.retryDelay (ApiClient.config client))
                            (RequestConfig.retryDelay config) in
  0 ≤ retries → 0 ≤ retryDelay →
  ApiClient.totalSleep
    (ApiClient.requestWithRetry abortMessage handler client endpoint config).2
  ≤ retryDelay * (2 ^ retries - 1).
Proof.
  intros retries retryDelay Hretries Hdelay.
  destruct (retryLoop_trace_shape abortMessage handler client
              (ApiClientConfig.baseUrl (ApiClient.config client) +:+ endpoint)
              (ApiClient.mergeConfig client config) retries retryDelay
              (Z.to_nat (retries + 1)) 0 None)
    as (Hcount & _ & Hsleeps & _); [right; lia|].
  unfold ApiClient.totalSleep, ApiClient.requestWithRetry.
  fold retries retryDelay. rewrite Hsleeps.
  erewrite list_fmap_ext; [rewrite sum_backoff_delays|
                           by intros _ a _; rewrite Z.add_0_l].
  apply Z.mul_le_mono_nonneg_l; [done|].
  assert (2 ^ Z.of_nat (pred (ApiClient.attempts
            (ApiClient.retryLoop abortMessage handler client
               (ApiClientConfig.baseUrl (ApiClient.config client) +:+ endpoint)
               (ApiClient.mergeConfig client config) retries retryDelay
               (Z.to_nat (retries + 1)) 0 None).2)) ≤ 2 ^ retries);
    [|lia].
  apply Z.pow_le_mono_r; lia.
Qed.

Lemma requestWithRetry_total_sleep_bounded_witness :
  ApiClient.totalSleep
    (ApiClient.requestWithRetry "The operation was aborted."
       (ApiScenarios.always ApiScenarios.unavailable) ApiClient.new
       "/api/photos/42" ApiScenarios.twoRetries).2
  ≤ 1000 * (2 ^ 2 - 1).
Proof.
  apply (requestWithRetry_total_sleep_bounded "The operation was aborted."
           (ApiScenarios.always ApiScenarios.unavailable) ApiClient.new
           "/api/photos/42" ApiScenarios.twoRetries); cbn; lia.
Defined.

(** X5.  Every network call that [get] makes through the exported client
    carries the bearer token of the page, if the page has one, and a
    content type: the caller's, or JSON.  The method is GET unless the
    caller names another, and the caller's other headers pass unchanged.
    A header [Authorization] of the caller gives way to the token. *)
Theorem apiClient_get_sends_credentials
    (abortMessage : string)
    (handler : Z → string → RequestConfig.t → ApiClient.NetOutcome)
    (token : option string) (endpoint : string) (config : RequestConfig.t) :
  let trace :=
    (ApiClient.get abortMessage handler (ApiClient.apiClient token)
       endpoint config).2 in
  ∃ sent : RequestConfig.t,
    (∀ e, e ∈ trace → ApiClient.isFetch e = true →
          e = ApiClient.Fetch ("http://localhost:8000" +:+ endpoint) sent)
    ∧ RequestConfig.method sent
      = Some (default "GET" (RequestConfig.method config))
    ∧ RequestConfig.headers sent !! "Authorization"
      = match token with
        | Some t =>
            if String.eqb t "" then RequestConfig.headers config !! "Authorization"
            else Some ("Bearer " +:+ t)
        | None => RequestConfig.headers config !! "Authorization"
        end
    ∧ RequestConfig.headers sent !! "Content-Type"
      = Some (default "application/json"
                (RequestConfig.headers config !! "Content-Type"))
    ∧ (∀ name, name ≠ "Authorization" → name ≠ "Content-Type" →
               RequestConfig.headers sent !! name
               = RequestConfig.headers config !! name).
Proof.
  intros trace. eexists. split.
  { subst trace. unfold ApiClient.get, ApiClient.requestWithRetry.
    apply retryLoop_trace_shape.
    match goal with
    | |- _ ∨ 0 + Z.of_nat (Z.to_nat (?r + 1)) = _ =>
        destruct (decide (0 ≤ r)); [right|left]; lia
    end. }
  unfold ApiClient.mergeConfig, ApiClient.apiClient, ApiClient.authInterceptor.
  cbn [ApiClient.requestInterceptors ApiClient.addRequestInterceptor
       ApiClient.new app fold_left RequestConfig.method RequestConfig.headers].
  destruct token as [t|]; [destruct (String.eqb t "")|];
    cbn [RequestConfig.method RequestConfig.headers];
    (split; [done|]); (split; [|split]).
  all: try (intros name Hauth Htype;
            rewrite lookup_union_l by (by rewrite lookup_singleton_ne);
            by rewrite ?lookup_insert_ne).
  all: rewrite ?lookup_union_l by (by rewrite lookup_singleton_ne);
       rewrite ?lookup_insert_eq; try done.
  all: rewrite lookup_union, ?lookup_insert_ne by done;
       rewrite lookup_singleton_eq;
       by destruct (RequestConfig.headers config !! "Content-Type").
Qed.

(** X6.  Whatever the one [fetch] of [ApiService.request] does, a
    rejection of [request] is an [Error] instance, never another value;
    the generic fetch hook that awaited it then shows the message of
    that error, and shows the data when [request] resolved. *)
Theorem apiService_request_rejects_with_Error
    (net : Js.Thrown + ApiClient.Response) :
  match ApiService.request net with
  | inl (Js.ThrowError e) =>
      UseApi.fetchData_settle (ApiService.settled (ApiService.request net))
      = {| UseApi.data := None; UseApi.loading := false;
           UseApi.error := Some (Js.message e) |}
  | inl Js.ThrowOther => False
  | inr data =>
      UseApi.fetchData_settle (ApiService.settled (ApiService.request net))
      = {| UseApi.data := Some data; UseApi.loading := false;
           UseApi.error := None |}
  end.
Proof.
  unfold ApiService.request.
  destruct net as [[e|]|response]; cbn; [done..|].
  destruct (ApiClient.ok response); cbn; [|done].
  by destruct (ApiClient.json response) as [data|[e|]].
Qed.



(** ** The cache: sweep, clear, round trips *)

Section CacheSweepFacts.
Import CacheService.
Context {T : Type}.
Implicit Types (c : CacheService.t T) (item : CacheItem T)
               (m : JsMap.t (CacheItem T)).

Lemma JsMap_get_delete key key' m :
  NoDup (JsMap.keys m) →
  JsMap.get key' (JsMap.delete key m)
  = if decide (key = key') then None else JsMap.get key' m.
Proof.
  intros Hm. case_decide as Hk.
  - subst. by apply JsMap_get_delete_eq.
  - by apply JsMap_get_delete_ne.
Qed.

Lemma JsMap_get_delete_all (keys : list string) :
  ∀ m key,
    NoDup (JsMap.keys m) →
    JsMap.get key (foldl (λ m k, JsMap.delete k m) m keys)
    = if decide (key ∈ keys) then None else JsMap.get key m.
Proof.
  induction keys as [|k keys IH]; intros m key Hm; cbn [foldl].
  - by rewrite decide_False by apply not_elem_of_nil.
  - rewrite IH by by apply JsMap_delete_NoDup.
    rewrite JsMap_get_delete by done.
    destruct (decide (key ∈ keys)) as [Hin|Hnin].
    + by rewrite decide_True by by right.
    + destruct (decide (k = key)) as [->|Hne].
      * by rewrite decide_True by left.
      * rewrite decide_False; [done|].
        by intros [->|?]%elem_of_cons.
Qed.

Lemma JsMap_delete_all_NoDup (keys : list string) :
  ∀ m, NoDup (JsMap.keys m) →
       NoDup (JsMap.keys (foldl (λ m k, JsMap.delete k m) m keys)).
Proof.
  induction keys as [|k keys IH]; intros m Hm; cbn [foldl]; [done|].
  by apply IH, JsMap_delete_NoDup.
Qed.

Lemma JsMap_elem_get key (v : CacheItem T) m :
  NoDup (JsMap.keys m) → (key, v) ∈ m → JsMap.get key m = Some v.
Proof.
  unfold JsMap.keys. induction m as [|[k v'] m IH]; cbn.
  - by intros _ ?%elem_of_nil.
  - intros [Hk Hm]%NoDup_cons [[= -> ->]|Hin]%elem_of_cons.
    + by rewrite String.eqb_refl.
    + destruct (String.eqb_spec k key) as [->|_]; [|auto].
      destruct Hk. apply list_elem_of_fmap. by exists (key, v).
Qed.

(** What the sweep leaves readable in the memory cache. *)
Lemma cleanup_memory_get now c key :
  wellFormed c →
  JsMap.get key (memoryCache (cleanup now c))
  = match JsMap.get key (memoryCache c) with
    | Some item => if isExpired now item then None else Some item
    | None => None
    end.
Proof.
  intros Hwf. unfold cleanup. cbn [memoryCache].
  rewrite JsMap_get_delete_all by done.
  destruct (JsMap.get key (memoryCache c)) as [item|] eqn:Hget.
  - destruct (isExpired now item) eqn:Hexp.
    + rewrite decide_True; [done|]. apply list_elem_of_fmap.
      exists (key, item). split; [done|]. apply list_elem_of_filter.
      split; [done|]. by apply JsMap_get_Some_elem.
    + rewrite decide_False; [done|].
      intros ([k item'] & -> & [Hexp' Hin]%list_elem_of_filter)%list_elem_of_fmap.
      cbn in *. apply (JsMap_elem_get _ _ _ Hwf) in Hin. congruence.
  - by destruct (decide _).
Qed.

Lemma sweepStorage_lookup now (s : gmap string (option (CacheItem T))) key :
  mjoin (sweepStorage now s !! getStorageKey key)
  = match mjoin (s !! getStorageKey key) with
    | Some item => if isExpired now item then None else Some item
    | None => None
    end.
Proof.
  unfold sweepStorage. rewrite map_lookup_filter.
  destruct (s !! getStorageKey key) as [[item|]|]; cbn; [| |done].
  - unfold swept. cbn [fst snd]. rewrite getStorageKey_prefixed. cbn [andb].
    destruct (isExpired now item).
    + by rewrite option_guard_False.
    + by rewrite option_guard_True.
  - unfold swept. cbn [fst snd]. rewrite getStorageKey_prefixed. cbn [andb].
    by rewrite option_guard_False.
Qed.

Lemma cleanup_readItem now c key storage :
  wellFormed c →
  readItem key storage (cleanup now c)
  = match readItem key storage c with
    | Some item => if isExpired now item then None else Some item
    | None => None
    end.
Proof.
  intros Hwf. destruct storage; cbn [readItem].
  - by apply cleanup_memory_get.
  - apply sweepStorage_lookup.
  - apply sweepStorage_lookup.
Qed.

Lemma cleanup_wellFormed now c : wellFormed c → wellFormed (cleanup now c).
Proof. intros Hwf. by apply JsMap_delete_all_NoDup. Qed.

Lemma isExpired_mono now now' item :
  now ≤ now' → isExpired now item = true → isExpired now' item = true.
Proof. unfold isExpired. rewrite !Z.ltb_lt. lia. Qed.

Lemma getStorageKey_inj key key' :
  getStorageKey key = getStorageKey key' → key = key'.
Proof. unfold getStorageKey. by intros ?%(inj (String.append _)). Qed.

Lemma countPrefixed_clearStorage (s : gmap string (option (CacheItem T))) :
  countPrefixed (clearStorage s) = 0.
Proof.
  unfold countPrefixed, clearStorage.
  replace (filter _ (filter _ s)) with (∅ : gmap string (option (CacheItem T)));
    [by rewrite map_size_empty|].
  symmetry. apply map_eq. intros k. rewrite lookup_empty.
  destruct (filter _ (filter _ s) !! k) as [v|] eqn:Hk; [|done].
  apply map_lookup_filter_Some in Hk as [Hk Hyes].
  apply map_lookup_filter_Some in Hk as [_ Hno]. cbn in *. congruence.
Qed.

End CacheSweepFacts.

(** X8.  The sweep does not change what a later read returns: for every
    key and backend, [get] at a time not before the sweep returns the same
    value on the swept cache as on the cache left alone. *)
Theorem cleanup_invisible_to_get {T : Type} (c : CacheService.t T)
    (key : string) (storage : CacheService.Storage) (now now' : Z) :
  CacheService.wellFormed c →
  now ≤ now' →
  (CacheService.get key storage now' (CacheService.cleanup now c)).1
  = (CacheService.get key storage now' c).1.
Proof.
  intros Hwf Hlater. unfold CacheService.get.
  rewrite cleanup_readItem by done.
  destruct (CacheService.readItem key storage c) as [item|]; [|done].
  destruct (CacheService.isExpired now item) eqn:Hexp.
  - by rewrite (isExpired_mono now now' item Hlater Hexp).
  - by destruct (CacheService.isExpired now' item).
Qed.

Lemma cleanup_invisible_to_get_witness :
  (CacheService.get "new" CacheService.memory 200
     (CacheService.cleanup 160 CacheScenarios.mixed)).1 = Some 2
  ∧ (CacheService.get "old" CacheService.localStorage 200
       (CacheService.cleanup 160 CacheScenarios.mixed)).1 = None.
Proof.
  assert (CacheService.wellFormed CacheScenarios.mixed) as Hwf.
  { apply (bool_decide_unpack _). by vm_compute. }
  split.
  - rewrite (cleanup_invisible_to_get CacheScenarios.mixed "new"
               CacheService.memory 160 200 Hwf); [reflexivity|lia].
  - rewrite (cleanup_invisible_to_get CacheScenarios.mixed "old"
               CacheService.localStorage 160 200 Hwf); [reflexivity|lia].
Defined.

(** X9.  After the sweep no backend holds an expired entry, the storage
    areas hold no entry under the prefix that does not parse, and the keys
    of other applications in the storage areas are as they were. *)
Theorem cleanup_leaves_only_live_entries {T : Type} (c : CacheService.t T)
    (now : Z) :
  CacheService.wellFormed c →
  (∀ key storage item,
     CacheService.readItem key storage (CacheService.cleanup now c) = Some item →
     CacheService.readItem key storage c = Some item
     ∧ CacheService.isExpired now item = false)
  ∧ (∀ key storage,
       CacheService.stored (CacheService.getStorageKey key) storage
         (CacheService.cleanup now c) ≠ Some None)
  ∧ (∀ k storage,
       String.prefix "photo_gallery_cache_" k = false →
       CacheService.stored k storage (CacheService.cleanup now c)
       = CacheService.stored k storage c).
Proof.
  intros Hwf. split; [|split].
  - intros key storage item. rewrite cleanup_readItem by done.
    destruct (CacheService.readItem key storage c) as [item'|]; [|done].
    destruct (CacheService.isExpired now item') eqn:Hexp; [done|].
    by intros [= ->].
  - intros key storage Hbroken.
    destruct storage; cbn in Hbroken; [done|..];
      apply map_lookup_filter_Some in Hbroken as [_ Hkept];
      unfold CacheService.swept in Hkept; cbn [fst snd] in Hkept;
      by rewrite getStorageKey_prefixed in Hkept.
  - intros k storage Hforeign.
    destruct storage; cbn; [done|..];
      unfold CacheService.sweepStorage; rewrite map_lookup_filter;
      (destruct (_ !! k) as [v|]; [|done]); cbn;
      rewrite option_guard_True; [done| |done|];
      unfold CacheService.swept; cbn [fst snd]; by rewrite Hforeign.
Qed.

Lemma cleanup_leaves_only_live_entries_witness :
  CacheService.readItem "new" CacheService.memory CacheScenarios.mixed
  = Some {| CacheService.data := 2; CacheService.timestamp := 150;
            CacheService.ttl := 100; CacheService.key := "new" |}
  ∧ CacheService.stored "theme" CacheService.localStorage
      (CacheService.cleanup 160 CacheScenarios.mixed) = Some None.
Proof.
  assert (CacheService.wellFormed CacheScenarios.mixed) as Hwf.
  { apply (bool_decide_unpack _). by vm_compute. }
  destruct (cleanup_leaves_only_live_entries CacheScenarios.mixed 160 Hwf)
    as (Hlive & _ & Hforeign).
  split.
  - apply (Hlive "new" CacheService.memory). reflexivity.
  - rewrite (Hforeign "theme" CacheService.localStorage); reflexivity.
Defined.

(** X10.  [clear] empties the backend it is given, and all three when it
    is given none; the other backends are left as they were, and so are
    the keys of other applications in the storage areas. *)
Theorem clear_empties_backend {T : Type} (c : CacheService.t T) :
  (∀ storage, CacheService.size storage (CacheService.clear None c) = 0)
  ∧ (∀ storage,
       CacheService.size storage (CacheService.clear (Some storage) c) = 0)
  ∧ (∀ storage storage' key,
       storage ≠ storage' →
       CacheService.readItem key storage' (CacheService.clear (Some storage) c)
       = CacheService.readItem key storage' c)
  ∧ (∀ target k storage,
       String.prefix "photo_gallery_cache_" k = false →
       CacheService.stored k storage (CacheService.clear target c)
       = CacheService.stored k storage c).
Proof.
  split; [|split; [|split]].
  - intros []; cbn; [done|apply countPrefixed_clearStorage..].
  - intros []; cbn; [done|apply countPrefixed_clearStorage..].
  - by intros [] [] key Hne.
  - intros target k storage Hforeign.
    assert (∀ s : gmap string (option (CacheService.CacheItem T)),
              CacheService.clearStorage s !! k = s !! k) as Hkeep.
    { intros s. unfold CacheService.clearStorage. rewrite map_lookup_filter.
      destruct (s !! k) as [v|]; [|done]. cbn.
      by rewrite option_guard_True. }
    by destruct target as [[]|], storage; cbn; rewrite ?Hkeep.
Qed.

Section CacheRoundTripFacts.
Import CacheService.
Context {T : Type}.
Implicit Types (c : CacheService.t T) (item : CacheItem T)
               (m : JsMap.t (CacheItem T)).

(** The eviction leaves every key but the one it picked. *)
Lemma evictOldest_get_other now c key :
  (findOldest now (memoryCache c)).1 ≠ key →
  JsMap.get key (memoryCache (evictOldest now c))
  = JsMap.get key (memoryCache c).
Proof.
  intros Hne. unfold evictOldest.
  destruct (_ <=? _); [done|]. destruct (String.eqb _ ""); [done|].
  by apply JsMap_get_delete_ne.
Qed.

Lemma JsMap_elem_set_other key value (e : string * CacheItem T) m :
  NoDup (JsMap.keys m) → e ∈ m → e.1 ≠ key → e ∈ JsMap.set key value m.
Proof.
  intros Hm He Hne. destruct e as [k v]. apply JsMap_get_Some_elem.
  rewrite JsMap_get_set_ne by done. by apply JsMap_elem_get.
Qed.

(** The eviction that follows an insert does not pick the entry just
    written when the cache holds an older entry under another key. *)
Lemma set_not_evicted key d options now evictNow c :
  opt_storage options = None ∨ opt_storage options = Some memory →
  wellFormed c →
  now ≤ evictNow →
  (∃ e, e ∈ memoryCache c ∧ e.1 ≠ key ∧ timestamp e.2 < now) →
  JsMap.get key (memoryCache (set key d options now evictNow false c))
  = Some {| data := d; timestamp := now;
            ttl := default (defaultTTL c) (opt_ttl options); key := key |}.
Proof.
  intros Hstorage Hwf Hclock (e & He & Hother & Holder). unfold set.
  replace (default memory (opt_storage options)) with memory
    by (by destruct Hstorage as [-> | ->]).
  set (item := {| data := d; timestamp := now;
                  ttl := default (defaultTTL c) (opt_ttl options); key := key |}).
  set (c' := withMemory c (JsMap.set key item (memoryCache c))).
  assert (wellFormed c') as Hwf' by (by apply JsMap_set_NoDup).
  assert (JsMap.get key (memoryCache c') = Some item) as Hget
    by apply JsMap_get_set_eq.
  rewrite evictOldest_get_other; [done|].
  intros Hpicked.
  destruct (fold_oldestStep (memoryCache c') "" evictNow) as [Hmin Hcase].
  fold (findOldest evictNow (memoryCache c')) in *.
  assert (e ∈ memoryCache c') as He' by (by apply JsMap_elem_set_other).
  destruct Hcase as [[_ Hall]|(b & item0 & a & Hm & Hts & _ & _)].
  { specialize (Hall e He'). lia. }
  rewrite Hpicked in Hm.
  assert (JsMap.get key (memoryCache c') = Some item0) as Hget0.
  { apply JsMap_elem_get; [done|]. rewrite Hm. apply elem_of_app. right. left. }
  assert (item0 = item) as -> by congruence.
  specialize (Hmin e He'). rewrite <- Hts in Hmin. cbn in Hmin. lia.
Qed.

End CacheRoundTripFacts.

(** X11.  What [set] writes, [get] reads back: until the time to live has
    passed, [get] on the backend that [set] was asked to write to returns
    the value.  For a storage area the write must succeed; for the memory
    backend the cache must have room left, or hold an older entry under
    another key for the eviction to pick. *)
Theorem set_get_round_trip {T : Type} (c : CacheService.t T) (key : string)
    (d : T) (options : CacheService.CacheOptions) (now evictNow now' : Z) :
  let storage := default CacheService.memory (CacheService.opt_storage options) in
  CacheService.wellFormed c →
  now ≤ evictNow →
  (storage = CacheService.memory →
     JsMap.size (CacheService.memoryCache c) < CacheService.maxSize c
     ∨ ∃ e, e ∈ CacheService.memoryCache c ∧ e.1 ≠ key
            ∧ CacheService.timestamp e.2 < now) →
  now' - now ≤ default (CacheService.defaultTTL c) (CacheService.opt_ttl options) →
  (CacheService.get key storage now'
     (CacheService.set key d options now evictNow false c)).1 = Some d.
Proof.
  intros storage Hwf Hclock Hmemory Hfresh.
  assert (CacheService.readItem key storage
            (CacheService.set key d options now evictNow false c)
          = Some {| CacheService.data := d; CacheService.timestamp := now;
                    CacheService.ttl :=
                      default (CacheService.defaultTTL c)
                              (CacheService.opt_ttl options);
                    CacheService.key := key |}) as Hread.
  { destruct (decide (storage = CacheService.memory)) as [Hmem|Hweb].
    - destruct (Hmemory Hmem) as [Hroom|Holder].
      + by apply set_then_readItem.
      + rewrite Hmem. apply set_not_evicted; [|done..].
        subst storage. destruct (CacheService.opt_storage options) as [[]|];
          by auto.
    - apply set_then_readItem. by intros ?. }
  unfold CacheService.get. rewrite Hread. unfold CacheService.isExpired.
  cbn [CacheService.ttl CacheService.timestamp CacheService.data].
  by replace (_ <? _) with false by (symmetry; apply Z.ltb_ge; lia).
Qed.

Lemma set_get_round_trip_witness :
  (CacheService.get "fresh" CacheService.memory 260
     (CacheService.set "fresh" 7 CacheScenarios.ttl100 200 200 false
        CacheScenarios.overfull)).1 = Some 7
  ∧ (CacheService.get "fresh" CacheService.localStorage 260
       (CacheService.set "fresh" 7 CacheScenarios.durable100 200 200 false
          CacheScenarios.overfull)).1 = Some 7.
Proof.
  assert (CacheService.wellFormed CacheScenarios.overfull) as Hwf.
  { apply (bool_decide_unpack _). by vm_compute. }
  split.
  - apply (set_get_round_trip CacheScenarios.overfull "fresh" 7
             CacheScenarios.ttl100 200 200 260 Hwf); [lia| |cbn; lia].
    intros _. right. eexists. split; [left|]. split; [done|]. reflexivity.
  - apply (set_get_round_trip CacheScenarios.overfull "fresh" 7
             CacheScenarios.durable100 200 200 260 Hwf); [lia|done|cbn; lia].
Defined.

(** X12.  When the write to a storage area fails, the storage area is left
    as it was, an older value under the key included, and the value is
    kept in the memory backend instead, from where [get] returns it until
    its time to live has passed. *)
Theorem set_falls_back_to_memory {T : Type} (c : CacheService.t T)
    (key : string) (d : T) (options : CacheService.CacheOptions)
    (now evictNow now' : Z) :
  CacheService.opt_storage options = Some CacheService.localStorage
  ∨ CacheService.opt_storage options = Some CacheService.sessionStorage →
  now' - now ≤ default (CacheService.defaultTTL c) (CacheService.opt_ttl options) →
  let c' := CacheService.set key d options now evictNow true c in
  (CacheService.get key CacheService.memory now' c').1 = Some d
  ∧ CacheService.window_localStorage c' = CacheService.window_localStorage c
  ∧ CacheService.window_sessionStorage c' = CacheService.window_sessionStorage c.
Proof.
  intros Hstorage Hfresh c'. split.
  - unfold CacheService.get. subst c'.
    rewrite set_fallback_readItem by done. unfold CacheService.isExpired.
    cbn [CacheService.ttl CacheService.timestamp CacheService.data].
    by replace (_ <? _) with false by (symmetry; apply Z.ltb_ge; lia).
  - subst c'. unfold CacheService.set. by destruct Hstorage as [-> | ->].
Qed.

Lemma set_falls_back_to_memory_witness :
  let c' := CacheService.set "old" 9 CacheScenarios.durable100 200 200 true
              CacheScenarios.mixed in
  (CacheService.get "old" CacheService.memory 250 c').1 = Some 9
  ∧ CacheService.window_localStorage c'
    = CacheService.window_localStorage CacheScenarios.mixed
  ∧ CacheService.window_sessionStorage c'
    = CacheService.window_sessionStorage CacheScenarios.mixed.
Proof.
  apply (set_falls_back_to_memory CacheScenarios.mixed "old" 9
           CacheScenarios.durable100 200 200 250).
  - by left.
  - cbn. lia.
Defined.

(** X13.  The memory backend stays within its ceiling from one insert to
    the next as long as the clock has moved on since the entries it holds
    were written and no key is the empty string. *)
Theorem set_keeps_ceiling {T : Type} (c : CacheService.t T) (key : string)
    (d : T) (options : CacheService.CacheOptions) (now evictNow : Z) :
  CacheService.opt_storage options = None
  ∨ CacheService.opt_storage options = Some CacheService.memory →
  CacheService.wellFormed c →
  1 ≤ CacheService.maxSize c →
  CacheService.size CacheService.memory c ≤ CacheService.maxSize c →
  (∀ e, e ∈ CacheService.memoryCache c →
        CacheService.timestamp e.2 < evictNow ∧ e.1 ≠ "") →
  key ≠ "" →
  CacheService.size CacheService.memory
    (CacheService.set key d options now evictNow false c)
  ≤ CacheService.maxSize c.
Proof.
  intros Hstorage Hwf Hmax Hsize Hentries Hkey. unfold CacheService.set.
  replace (default CacheService.memory (CacheService.opt_storage options))
    with CacheService.memory by (by destruct Hstorage as [-> | ->]).
  set (item := {| CacheService.data := d; CacheService.timestamp := now;
                  CacheService.ttl := _; CacheService.key := key |}).
  set (c' := CacheService.withMemory c
               (JsMap.set key item (CacheService.memoryCache c))).
  assert (CacheService.wellFormed c') as Hwf' by (by apply JsMap_set_NoDup).
  cbn [CacheService.size] in *.
  destruct (decide (JsMap.size (CacheService.memoryCache c')
                    ≤ CacheService.maxSize c)) as [Hfits|Hover].
  { unfold CacheService.evictOldest.
    by replace (_ <=? _) with true by (symmetry; apply Z.leb_le; done). }
  assert (JsMap.has key (CacheService.memoryCache c) = false
          ∧ JsMap.size (CacheService.memoryCache c') = CacheService.maxSize c + 1)
    as [Habsent Hsize'].
  { unfold c', CacheService.withMemory in *.
    cbn [CacheService.memoryCache] in *.
    rewrite JsMap_size_set in Hover |- *.
    destruct (JsMap.has key _); [lia|]. split; [done|lia]. }
  assert (∃ e0, e0 ∈ CacheService.memoryCache c) as [e0 He0].
  { unfold c', CacheService.withMemory in Hsize'.
    cbn [CacheService.memoryCache] in Hsize'.
    rewrite JsMap_size_set, Habsent in Hsize'. unfold JsMap.size in Hsize'.
    destruct (CacheService.memoryCache c) as [|e0 m0]; [cbn in Hsize'; lia|].
    exists e0. left. }
  destruct (Hentries e0 He0) as [Hold0 _].
  assert (e0.1 ≠ key) as Hne0.
  { intros Heq. unfold JsMap.has in Habsent.
    destruct (JsMap.get key (CacheService.memoryCache c)) eqn:Hg; [done|].
    apply JsMap_get_None in Hg. apply Hg. rewrite <- Heq.
    apply list_elem_of_fmap. by exists e0. }
  assert (e0 ∈ CacheService.memoryCache c') as He0'.
  { unfold c', CacheService.withMemory. cbn [CacheService.memoryCache].
    by apply JsMap_elem_set_other. }
  destruct (evictOldest_removes_oldest evictNow c' Hwf')
    as (item0 & Hget0 & _ & _ & Hevict).
  { change (CacheService.maxSize c') with (CacheService.maxSize c). lia. }
  { by exists e0. }
  destruct Hevict as (_ & _ & Hshrunk & _).
  { intros Hempty. rewrite Hempty in Hget0.
    apply JsMap_get_Some_elem in Hget0.
    assert ("" ∈ JsMap.keys (CacheService.memoryCache c')) as Hin.
    { apply list_elem_of_fmap. by exists ("", item0). }
    unfold c', CacheService.withMemory in Hin.
    cbn [CacheService.memoryCache] in Hin. rewrite JsMap_keys_set in Hin.
    assert (∀ k, k ∈ JsMap.keys (CacheService.memoryCache c) → k ≠ "") as Hkeys.
    { intros k ([k' v'] & -> & Hkv)%list_elem_of_fmap. by apply (Hentries _ Hkv). }
    destruct (JsMap.has key (CacheService.memoryCache c)).
    - by apply (Hkeys "").
    - apply elem_of_app in Hin as [Hin|Hin%list_elem_of_singleton];
        [by apply (Hkeys "")|done]. }
  rewrite Hshrunk, Hsize'. lia.
Qed.

Lemma set_keeps_ceiling_witness :
  CacheService.size CacheService.memory
    (CacheService.set "k100" 100 CacheService.noOptions 1100 1100 false
       (CacheScenarios.fillApart 1000 100))
  ≤ 100.
Proof.
  apply (set_keeps_ceiling (CacheScenarios.fillApart 1000 100) "k100" 100
           CacheService.noOptions 1100 1100).
  - by left.
  - apply (bool_decide_unpack _). by vm_compute.
  - by vm_compute.
  - by vm_compute.
  - apply Forall_forall.
    apply (bool_decide_unpack _). by vm_compute.
  - done.
Defined.

(** X14.  [delete] removes the entry under the key from the backend it is
    given, and changes what can be read under no other key and from no
    other backend. *)
Theorem delete_removes_only_that_entry {T : Type} (c : CacheService.t T)
    (key : string) (storage : CacheService.Storage) :
  CacheService.wellFormed c →
  CacheService.readItem key storage (CacheService.delete key storage c) = None
  ∧ (∀ key' storage',
       key' ≠ key ∨ storage' ≠ storage →
       CacheService.readItem key' storage' (CacheService.delete key storage c)
       = CacheService.readItem key' storage' c).
Proof.
  intros Hwf. split; [by apply readItem_delete|].
  intros key' storage' Hother.
  destruct (decide (storage' = storage)) as [->|Hstorage].
  - destruct Hother as [Hkey|?]; [|done].
    destruct storage; cbn.
    + by apply JsMap_get_delete_ne.
    + rewrite lookup_delete_ne; [done|]. by intros ?%getStorageKey_inj.
    + rewrite lookup_delete_ne; [done|]. by intros ?%getStorageKey_inj.
  - by destruct storage, storage'.
Qed.

Lemma delete_removes_only_that_entry_witness :
  CacheService.readItem "old" CacheService.memory
    (CacheService.delete "old" CacheService.memory CacheScenarios.mixed) = None
  ∧ CacheService.readItem "new" CacheService.memory
      (CacheService.delete "old" CacheService.memory CacheScenarios.mixed)
    = CacheService.readItem "new" CacheService.memory CacheScenarios.mixed.
Proof.
  assert (CacheService.wellFormed CacheScenarios.mixed) as Hwf.
  { apply (bool_decide_unpack _). by vm_compute. }
  destruct (delete_removes_only_that_entry CacheScenarios.mixed "old"
              CacheService.memory Hwf) as [Hgone Hothers].
  split; [exact Hgone|]. apply Hothers. by left.
Defined.

(** ** The paginated accumulator: merging and failures *)

Section AppendPageFacts.
Import Js UsePaginatedData.
Context {T Id : Type} `{Countable Id}.
Variable id : T → Id.

Lemma filter_none {A : Type} (P : A → Prop) `{∀ x, Decision (P x)} (l : list A) :
  (∀ x, x ∈ l → ¬ P x) → filter P l = [].
Proof.
  induction l as [|x l IH]; intros Hl; [done|].
  rewrite filter_cons, decide_False by (apply Hl; left).
  apply IH. intros y Hy. apply Hl. by right.
Qed.

Lemma appendPage_again (prev page : list T) :
  filter (λ item, id item ∉ id <$> appendPage id prev page) page = [].
Proof.
  apply filter_none. intros item Hitem Hnew. apply Hnew.
  rewrite appendPage_filter, fmap_app. apply elem_of_app.
  destruct (decide (id item ∈ id <$> prev)) as [Hin|Hnin]; [by left|right].
  apply list_elem_of_fmap. exists item. split; [done|].
  by apply list_elem_of_filter.
Qed.

End AppendPageFacts.

(** X15.  Appending the same page a second time adds nothing: the merge
    is idempotent, whatever the page and whatever was accumulated. *)
Theorem appendPage_idempotent {T Id : Type} `{Countable Id} (id : T → Id)
    (prev page : list T) :
  UsePaginatedData.appendPage id (UsePaginatedData.appendPage id prev page) page
  = UsePaginatedData.appendPage id prev page.
Proof.
  rewrite (appendPage_filter id (UsePaginatedData.appendPage id prev page)).
  by rewrite appendPage_again, app_nil_r.
Qed.

(** X16.  When the accumulated items have distinct ids and the items of
    the page have distinct ids, the merged items have distinct ids. *)
Theorem appendPage_keeps_ids_distinct {T Id : Type} `{Countable Id}
    (id : T → Id) (prev page : list T) :
  NoDup (id <$> prev) → NoDup (id <$> page) →
  NoDup (id <$> UsePaginatedData.appendPage id prev page).
Proof.
  intros Hprev Hpage. rewrite appendPage_filter, fmap_app.
  apply NoDup_app. split; [done|]. split.
  - intros x Hx (item & -> & [Hnew _]%list_elem_of_filter)%list_elem_of_fmap.
    done.
  - clear Hprev. induction page as [|item page IH]; [constructor|].
    cbn in Hpage. apply NoDup_cons in Hpage as [Hitem Hpage].
    rewrite filter_cons. destruct (decide _); [|by apply IH].
    cbn. apply NoDup_cons. split; [|by apply IH].
    intros (item' & Heq & [_ Hin]%list_elem_of_filter)%list_elem_of_fmap.
    apply Hitem. rewrite Heq. apply list_elem_of_fmap. by exists item'.
Qed.

Lemma appendPage_keeps_ids_distinct_witness :
  NoDup (PageScenarios.id <$>
           UsePaginatedData.appendPage PageScenarios.id
             (UsePaginatedData.allData PageScenarios.seeded)
             (Page.data PageScenarios.secondPage)).
Proof.
  apply appendPage_keeps_ids_distinct.
  - apply (bool_decide_unpack _). by vm_compute.
  - apply (bool_decide_unpack _). by vm_compute.
Defined.



(** X18.  [refresh] followed by the answer to the fetch it made resets the
    accumulator to that answer: whatever was accumulated or shown as error
    before, the items are those of the answer, the page is 1 and nothing
    is loading. *)
Theorem refresh_resets_accumulator {T Id : Type} `{Countable Id} (id : T → Id)
    (h : UsePaginatedData.Hook T) (response : Page.t T) :
  UsePaginatedData.state
    (UsePaginatedData.run id h
       [UsePaginatedData.CallRefresh;
        UsePaginatedData.FetchSettles (length (UsePaginatedData.issued h))
          (Js.Resolved response)])
  = {| UsePaginatedData.allData := Page.data response;
       UsePaginatedData.currentPage := 1;
       UsePaginatedData.hasNextPage := Page.has_next response;
       UsePaginatedData.loading := false;
       UsePaginatedData.error := None;
       UsePaginatedData.total := Page.total response |}.
Proof.
  unfold UsePaginatedData.run. cbn [foldl UsePaginatedData.step].
  unfold UsePaginatedData.issue.
  cbn [UsePaginatedData.inFlight UsePaginatedData.issued UsePaginatedData.state].
  rewrite bool_decide_eq_true_2
    by (apply elem_of_app; right; apply list_elem_of_singleton; done).
  by rewrite list_lookup_middle.
Qed.

(** ** The preloader: bound, idleness, history, status *)

Section PreloaderInvariants.
Import UseImagePreloader.
Variable maxConcurrent : Z.
Implicit Types (st : UseImagePreloader.t).

(** The loop stops at its [await] only when a slot is free. *)
Lemma drainLoop_Some_room queue (active : gset string) queue' src :
  drainLoop maxConcurrent queue active = (queue', Some src) →
  Z.of_nat (size active) < maxConcurrent.
Proof.
  induction queue as [|s queue IH]; cbn; [done|].
  case_bool_decide; [|done].
  by destruct (String.eqb s "" || bool_decide (s ∈ active)).
Qed.

(** A property of the hook that every step keeps holds in every state
    the hook can reach. *)
Lemma run_invariant (P : UseImagePreloader.t → Prop) :
  P initial →
  (∀ st seen srcs, consistent st → P st →
                   P (startPreloading maxConcurrent seen srcs st)) →
  (∀ st i success, consistent st → P st →
                   P (imageSettles maxConcurrent i success st)) →
  ∀ events, P (run maxConcurrent initial events).
Proof.
  intros Hinit Hstart Hsettle events.
  cut (∀ st, consistent st → P st → P (run maxConcurrent st events)).
  { intros Hrun. apply Hrun; [apply initial_consistent|done]. }
  induction events as [|ev events IH]; intros st Hc HP; [done|].
  cbn. apply IH.
  - destruct ev; cbn;
      [by apply startPreloading_consistent|by apply imageSettles_consistent].
  - destruct ev; cbn; auto.
Qed.

Lemma runLoop_withinBound i st :
  withinBound maxConcurrent st → withinBound maxConcurrent (runLoop maxConcurrent i st).
Proof.
  unfold withinBound, runLoop. intros Hst.
  destruct (drainLoop maxConcurrent (loadingQueue st) (activeLoads st))
    as [queue [src|]] eqn:Hdrain; cbn [activeLoads]; [|done].
  pose proof (drainLoop_Some_room _ _ _ _ Hdrain) as Hroom.
  apply drainLoop_Some in Hdrain as [Hfresh _].
  rewrite size_union by (by apply disjoint_singleton_l).
  rewrite size_singleton. lia.
Qed.

Lemma runLoop_idle i st :
  idleWhenNotLoading st → idleWhenNotLoading (runLoop maxConcurrent i st).
Proof.
  unfold idleWhenNotLoading, runLoop. intros Hst.
  destruct (drainLoop maxConcurrent (loadingQueue st) (activeLoads st))
    as [queue [src|]] eqn:Hdrain; cbn [isLoading loadingQueue activeLoads].
  - intros Hoff. destruct (Hst Hoff) as [Hq _]. by rewrite Hq in Hdrain.
  - case_bool_decide as Hidle.
    + intros _. destruct Hidle as [Hsize ->]. split; [done|].
      by apply leibniz_equiv, size_empty_iff.
    + intros Hoff. destruct (Hst Hoff) as [Hq Ha]. rewrite Hq in Hdrain.
      cbn in Hdrain. by injection Hdrain as <-.
Qed.

Lemma loadsStarted_snoc key (l : list LogEntry) e :
  loadsStarted key (l ++ [e])
  = (loadsStarted key l + if startsLoadOf key e then 1 else 0)%nat.
Proof.
  unfold loadsStarted. rewrite filter_app, length_app. f_equal.
  rewrite filter_cons, filter_nil. by destruct (startsLoadOf key e).
Qed.

Lemma loadsSettled_snoc key (l : list LogEntry) e :
  loadsSettled key (l ++ [e])
  = (loadsSettled key l + if settlesLoadOf key e then 1 else 0)%nat.
Proof.
  unfold loadsSettled. rewrite filter_app, length_app. f_equal.
  rewrite filter_cons, filter_nil. by destruct (settlesLoadOf key e).
Qed.

Lemma runLoop_balanced i st :
  balanced st → balanced (runLoop maxConcurrent i st).
Proof.
  unfold balanced, runLoop. intros Hst key.
  destruct (drainLoop maxConcurrent (loadingQueue st) (activeLoads st))
    as [queue [src|]] eqn:Hdrain; cbn [log activeLoads]; [|done].
  apply drainLoop_Some in Hdrain as [Hfresh _].
  rewrite loadsStarted_snoc, loadsSettled_snoc, Hst. cbn.
  destruct (String.eqb_spec src key) as [->|Hne].
  - rewrite (bool_decide_eq_false_2 (key ∈ activeLoads st)) by done.
    rewrite bool_decide_eq_true_2
      by (by apply elem_of_union_l, elem_of_singleton).
    lia.
  - rewrite (bool_decide_ext (key ∈ {[src]} ∪ activeLoads st)
               (key ∈ activeLoads st))
      by (rewrite elem_of_union, elem_of_singleton;
          split; [intros [?|?]; [congruence|done]|by right]).
    lia.
Qed.

Lemma initImages_sound (newSrcs : list string) :
  ∀ prev : gmap string PreloadedImage,
    (∀ key img, prev !! key = Some img →
                src img = key ∧ (loaded img && error img = false)) →
    ∀ key img, initImages newSrcs prev !! key = Some img →
               src img = key ∧ (loaded img && error img = false).
Proof.
  unfold initImages.
  induction newSrcs as [|s newSrcs IH]; intros prev Hprev; cbn [foldl]; [done|].
  apply IH. destruct (prev !! s) eqn:Hs; [done|].
  intros key img. destruct (decide (s = key)) as [->|Hne].
  - rewrite lookup_insert_eq. by intros [= <-].
  - rewrite lookup_insert_ne by done. apply Hprev.
Qed.

End PreloaderInvariants.

(** X19.  In every state the hook can reach, the number of active loads
    is at most [maxConcurrent] (and zero when [maxConcurrent] is not
    positive). *)
Theorem activeLoads_within_bound (maxConcurrent : Z)
    (events : list UseImagePreloader.Event) :
  Z.of_nat (size (UseImagePreloader.activeLoads
                    (UseImagePreloader.run maxConcurrent
                       UseImagePreloader.initial events)))
  ≤ Z.max 0 maxConcurrent.
Proof.
  apply (run_invariant maxConcurrent (UseImagePreloader.withinBound maxConcurrent)).
  - unfold UseImagePreloader.withinBound. cbn. rewrite size_empty. lia.
  - intros st seen srcs _ Hst. unfold UseImagePreloader.startPreloading.
    destruct (filter _ srcs); [done|]. by apply runLoop_withinBound.
  - intros st i success _ Hst. unfold UseImagePreloader.imageSettles.
    destruct (UseImagePreloader.invocations st !! i) as [[src|]|]; [|done..].
    apply runLoop_withinBound. unfold UseImagePreloader.withinBound in *.
    cbn [UseImagePreloader.activeLoads].
    assert (size (UseImagePreloader.activeLoads st ∖ {[src]})
            ≤ size (UseImagePreloader.activeLoads st))%nat
      by (by apply subseteq_size, subseteq_difference_l).
    lia.
Qed.

(** X20.  Whenever [isLoading] is off, the queue is empty and no load is
    active. *)
Theorem isLoading_off_means_idle (maxConcurrent : Z)
    (events : list UseImagePreloader.Event) :
  let st := UseImagePreloader.run maxConcurrent UseImagePreloader.initial events in
  UseImagePreloader.isLoading st = false →
  UseImagePreloader.loadingQueue st = [] ∧ UseImagePreloader.activeLoads st = ∅.
Proof.
  apply (run_invariant maxConcurrent UseImagePreloader.idleWhenNotLoading).
  - done.
  - intros st seen srcs _ Hst. unfold UseImagePreloader.startPreloading.
    destruct (filter _ srcs); [done|]. by apply runLoop_idle.
  - intros st i success _ Hst. unfold UseImagePreloader.imageSettles.
    destruct (UseImagePreloader.invocations st !! i) as [[src|]|]; [|done..].
    apply runLoop_idle. intros Hoff. destruct (Hst Hoff) as [Hq Ha].
    cbn in *. split; [done|]. rewrite Ha. apply empty_difference_L.
Qed.

Lemma isLoading_off_means_idle_witness :
  let st := UseImagePreloader.run 3 UseImagePreloader.initial
              PreloaderScenarios.allSettled in
  UseImagePreloader.loadingQueue st = [] ∧ UseImagePreloader.activeLoads st = ∅.
Proof.
  apply (isLoading_off_means_idle 3 PreloaderScenarios.allSettled).
  reflexivity.
Defined.

(** X21.  In every state the hook can reach and for every key, the loads
    of the key that were started and have not settled number one when the
    key is in the active set, and none otherwise: a key is never being
    loaded twice at once, and the active set is exactly the keys being
    loaded. *)
Theorem loads_in_flight_match_active (maxConcurrent : Z)
    (events : list UseImagePreloader.Event) (key : string) :
  let st := UseImagePreloader.run maxConcurrent UseImagePreloader.initial events in
  UseImagePreloader.loadsStarted key (UseImagePreloader.log st)
  = (UseImagePreloader.loadsSettled key (UseImagePreloader.log st)
     + if bool_decide (key ∈ UseImagePreloader.activeLoads st) then 1 else 0)%nat.
Proof.
  revert key.
  apply (run_invariant maxConcurrent UseImagePreloader.balanced).
  - by intros key.
  - intros st seen srcs _ Hst. unfold UseImagePreloader.startPreloading.
    destruct (filter _ srcs); [done|]. by apply runLoop_balanced.
  - intros st i success Hc Hst. unfold UseImagePreloader.imageSettles.
    destruct (UseImagePreloader.invocations st !! i) as [[src|]|] eqn:Hi;
      [|done..].
    apply runLoop_balanced. intros key.
    cbn [UseImagePreloader.log UseImagePreloader.activeLoads].
    rewrite loadsStarted_snoc, loadsSettled_snoc, Hst. cbn.
    assert (src ∈ UseImagePreloader.activeLoads st) as Hactive.
    { apply (UseImagePreloader.consistent_active _ Hc). eauto. }
    destruct (String.eqb_spec src key) as [->|Hne].
    + rewrite (bool_decide_eq_true_2 (key ∈ UseImagePreloader.activeLoads st))
        by done.
      rewrite bool_decide_eq_false_2
        by (apply not_elem_of_difference; right; by apply elem_of_singleton).
      lia.
    + rewrite (bool_decide_ext (key ∈ UseImagePreloader.activeLoads st ∖ {[src]})
                 (key ∈ UseImagePreloader.activeLoads st))
        by (rewrite elem_of_difference, not_elem_of_singleton;
            split; [by intros [? _]|intros ?; split; [done|congruence]]).
      lia.
Qed.

(** X22.  In every state the hook can reach, the status that the hook
    reports for a key is filed under that key and is never both loaded
    and failed. *)
Theorem image_status_sound (maxConcurrent : Z)
    (events : list UseImagePreloader.Event) (key : string) :
  let st := UseImagePreloader.run maxConcurrent UseImagePreloader.initial events in
  UseImagePreloader.src (UseImagePreloader.getImageStatus key st) = key
  ∧ UseImagePreloader.isImageLoaded key st
    && UseImagePreloader.hasImageError key st = false.
Proof.
  intros st.
  assert (UseImagePreloader.soundStatus st) as Hsound.
  { subst st.
    apply (run_invariant maxConcurrent UseImagePreloader.soundStatus).
    - intros k img. cbn. by rewrite lookup_empty.
    - intros st seen srcs _ Hst. unfold UseImagePreloader.startPreloading.
      destruct (filter _ srcs) as [|s newSrcs] eqn:Hnew; [done|].
      unfold UseImagePreloader.soundStatus, UseImagePreloader.runLoop.
      destruct (UseImagePreloader.drainLoop _ _ _) as [queue [src|]];
        cbn [UseImagePreloader.preloadedImages];
        by apply initImages_sound.
    - intros st i success _ Hst. unfold UseImagePreloader.imageSettles.
      destruct (UseImagePreloader.invocations st !! i) as [[src|]|]; [|done..].
      unfold UseImagePreloader.soundStatus, UseImagePreloader.runLoop.
      destruct (UseImagePreloader.drainLoop _ _ _) as [queue [src'|]];
        cbn [UseImagePreloader.preloadedImages];
        intros k img; (destruct (decide (src = k)) as [->|Hne];
          [rewrite lookup_insert_eq; intros [= <-]; cbn; by destruct success
          |rewrite lookup_insert_ne by done; apply Hst]). }
  unfold UseImagePreloader.getImageStatus, UseImagePreloader.isImageLoaded,
    UseImagePreloader.hasImageError.
  destruct (UseImagePreloader.preloadedImages st !! key) as [img|] eqn:Hkey;
    [|done].
  cbn. by apply Hsound.
Qed.

(** ** The retry hook *)

Section RetryFacts.
Import Js UseRetry.
Context {T : Type}.
Variable options : Options.
Variable fn : nat → Thrown + T.

Local Abbreviation rounds first k :=
  (flat_map (λ i : nat, [Call i; Sleep (delay options (Z.of_nat i + 1))])
            (seq first k)).

(** After [k] failed calls that leave a retry, the loop is where it
    started, [k] rounds later. *)
Lemma retryLoop_failures (k : nat) :
  ∀ remaining c lastError st,
    0 ≤ c → c + Z.of_nat k ≤ maxRetries options →
    (∀ i, (i < k)%nat → ∃ e, fn (Z.to_nat c + i)%nat = inl e) →
    ∃ lastError' st',
      retryLoop options fn (k + remaining) c lastError st
      = let '(outcome, st'', trace) :=
          retryLoop options fn remaining (c + Z.of_nat k) lastError' st' in
        (outcome, st'', rounds (Z.to_nat c) k ++ trace).
Proof.
  induction k as [|k IH]; intros remaining c lastError st Hc Hk Hfail.
  - exists lastError, st. rewrite Z.add_0_r. cbn.
    by destruct (retryLoop _ _ _ _ _ _) as [[??]?].
  - destruct (Hfail 0%nat) as [e He]; [lia|]. rewrite Nat.add_0_r in He.
    cbn [Nat.add retryLoop]. rewrite He.
    rewrite (proj2 (Z.ltb_ge _ _)) by lia.
    edestruct (IH remaining (c + 1)) as (lastError' & st' & ->); [lia..| |].
    { intros i Hi. destruct (Hfail (S i)) as [e' He']; [lia|].
      exists e'. rewrite <-He'. f_equal. lia. }
    exists lastError', st'.
    replace (c + 1 + Z.of_nat k) with (c + Z.of_nat (S k)) by lia.
    destruct (retryLoop _ _ _ _ _ _) as [[outcome st''] trace].
    cbn [seq flat_map app]. repeat f_equal; lia.
Qed.




End RetryFacts.


(** X24.  When the first [k] calls of [fn] fail and call [k] succeeds,
    with [k <= maxRetries], [retry] resolves with that result after
    exactly [k + 1] calls, sleeps
    [min(initialDelay * backoffFactor^i, maxDelay)] after failure [i],
    and resets [retryCount] to 0 and [isRetrying] to false. *)
Theorem retry_recovers {T} (options : UseRetry.Options)
    (fn : nat → Js.Thrown + T) (st : UseRetry.State) (k : nat) (result : T) :
  Z.of_nat k ≤ UseRetry.maxRetries options →
  (∀ i, (i < k)%nat → ∃ e, fn i = inl e) →
  fn k = inr result →
  UseRetry.retry options fn st
  = (inr result,
     {| UseRetry.isRetrying := false; UseRetry.retryCount := 0 |},
     flat_map (λ i : nat,
                 [UseRetry.Call i;
                  UseRetry.Sleep
                    (Z.min (UseRetry.initialDelay options
                            * UseRetry.backoffFactor options ^ Z.of_nat i)
                           (UseRetry.maxDelay options))])
              (seq 0 k)
     ++ [UseRetry.Call k]).
Proof.
  intros Hk Hfail Hok. unfold UseRetry.retry.
  replace (Z.to_nat (UseRetry.maxRetries options + 1))
    with (k + S (Z.to_nat (UseRetry.maxRetries options) - k))%nat by lia.
  edestruct (retryLoop_failures options fn k) as (lastError' & st' & ->);
    [done|lia|by apply Hfail|].
  cbn [UseRetry.retryLoop]. rewrite Z.add_0_l, Nat2Z.id, Hok. cbn.
  do 2 f_equal. apply flat_map_ext. intros i. unfold UseRetry.delay.
  by replace (Z.of_nat i + 1 - 1) with (Z.of_nat i) by lia.
Qed.

Lemma retry_recovers_witness :
  UseRetry.retry UseRetry.defaults HookScenarios.flaky UseRetry.initialState
  = (inr "ok",
     {| UseRetry.isRetrying := false; UseRetry.retryCount := 0 |},
     [UseRetry.Call 0; UseRetry.Sleep 1000; UseRetry.Call 1;
      UseRetry.Sleep 2000; UseRetry.Call 2]).
Proof.
  apply (retry_recovers UseRetry.defaults HookScenarios.flaky
           UseRetry.initialState 2 "ok").
  - by vm_compute.
  - intros i Hi. exists (Js.ThrowError (Js.newError "Failed to fetch")).
    by destruct i as [|[|i]]; [..|lia].
  - reflexivity.
Defined.

(** X25.  When every call of [fn] fails, [retry] with [maxRetries >= 0]
    calls it [maxRetries + 1] times, sleeps between the calls as in the
    schedule, and rejects with the last failure as an [Error]; it leaves
    [retryCount] at [maxRetries + 1] and [isRetrying] off. *)
Theorem retry_exhausts {T} (options : UseRetry.Options)
    (fn : nat → Js.Thrown + T) (st : UseRetry.State) :
  0 ≤ UseRetry.maxRetries options →
  (∀ i, (i ≤ Z.to_nat (UseRetry.maxRetries options))%nat → ∃ e, fn i = inl e) →
  ∃ e, fn (Z.to_nat (UseRetry.maxRetries options)) = inl e ∧
  UseRetry.retry options fn st
  = (inl (Js.ThrowError (ApiClient.asError e)),
     {| UseRetry.isRetrying := false;
        UseRetry.retryCount := UseRetry.maxRetries options + 1 |},
     flat_map (λ i : nat,
                 [UseRetry.Call i;
                  UseRetry.Sleep
                    (Z.min (UseRetry.initialDelay options
                            * UseRetry.backoffFactor options ^ Z.of_nat i)
                           (UseRetry.maxDelay options))])
              (seq 0 (Z.to_nat (UseRetry.maxRetries options)))
     ++ [UseRetry.Call (Z.to_nat (UseRetry.maxRetries options))]).
Proof.
  intros Hmax Hfail.
  destruct (Hfail (Z.to_nat (UseRetry.maxRetries options))) as [e He]; [lia|].
  exists e. split; [done|]. unfold UseRetry.retry.
  replace (Z.to_nat (UseRetry.maxRetries options + 1))
    with (Z.to_nat (UseRetry.maxRetries options) + 1)%nat by lia.
  edestruct (retryLoop_failures options fn
               (Z.to_nat (UseRetry.maxRetries options)))
    as (lastError' & st' & ->); [done|lia|intros i Hi; apply Hfail; lia|].
  cbn [UseRetry.retryLoop]. rewrite Z.add_0_l, !Z2Nat.id, He by lia.
  rewrite (proj2 (Z.ltb_lt _ _)) by lia. cbn.
  do 2 f_equal. apply flat_map_ext. intros i. unfold UseRetry.delay.
  by replace (Z.of_nat i + 1 - 1) with (Z.of_nat i) by lia.
Qed.

Lemma retry_exhausts_witness :
  ∃ e, HookScenarios.broken 5%nat = inl e ∧
  UseRetry.retry HookScenarios.capped HookScenarios.broken UseRetry.initialState
  = (inl (Js.ThrowError (ApiClient.asError e)),
     {| UseRetry.isRetrying := false; UseRetry.retryCount := 6 |},
     [UseRetry.Call 0; UseRetry.Sleep 1000; UseRetry.Call 1;
      UseRetry.Sleep 2000; UseRetry.Call 2; UseRetry.Sleep 4000;
      UseRetry.Call 3; UseRetry.Sleep 4000; UseRetry.Call 4;
      UseRetry.Sleep 4000; UseRetry.Call 5]).
Proof.
  apply (retry_exhausts HookScenarios.capped HookScenarios.broken
           UseRetry.initialState).
  - by vm_compute.
  - intros i _. by eexists.
Defined.

(** ** The virtual list *)

(** X26.  With a positive item height and a non-negative overscan, every
    item that overlaps the viewport lies in the visible range: item [i]
    occupies the pixels from [i * itemHeight] up to [(i + 1) * itemHeight],
    the viewport those from [scrollTop] to [scrollTop + containerHeight]. *)
Theorem visibleRange_covers_viewport {T} (items : list T)
    (options : UseVirtualScroll.Options) (scrollTop : Z) :
  0 < UseVirtualScroll.itemHeight options →
  0 ≤ default 5 (UseVirtualScroll.overscan options) →
  ∃ r, UseVirtualScroll.useVirtualScroll items options scrollTop = Some r ∧
       ∀ i, 0 ≤ i < Z.of_nat (length items) →
            i * UseVirtualScroll.itemHeight options
            ≤ scrollTop + UseVirtualScroll.containerHeight options →
            scrollTop < (i + 1) * UseVirtualScroll.itemHeight options →
            (UseVirtualScroll.visibleRange r).1 ≤ i
            ∧ i ≤ (UseVirtualScroll.visibleRange r).2.
Proof.
  intros Hheight Hover. unfold UseVirtualScroll.useVirtualScroll,
    UseVirtualScroll.floorDiv.
  destruct (decide (UseVirtualScroll.itemHeight options = 0)) as [?|_]; [lia|].
  cbn. eexists. split; [done|]. cbn. intros i Hi Htop Hbottom.
  assert (scrollTop `div` UseVirtualScroll.itemHeight options < i + 1)
    by (apply Z.div_lt_upper_bound; lia).
  assert (i ≤ (scrollTop + UseVirtualScroll.containerHeight options)
              `div` UseVirtualScroll.itemHeight options)
    by (apply Z.div_le_lower_bound; lia).
  lia.
Qed.

Lemma visibleRange_covers_viewport_witness :
  ∃ r, UseVirtualScroll.useVirtualScroll HookScenarios.thousand
         HookScenarios.rows 1230 = Some r ∧
       ∀ i, 0 ≤ i < Z.of_nat (length HookScenarios.thousand) →
            i * 100 ≤ 1230 + 450 → 1230 < (i + 1) * 100 →
            (UseVirtualScroll.visibleRange r).1 ≤ i
            ∧ i ≤ (UseVirtualScroll.visibleRange r).2.
Proof.
  apply (visibleRange_covers_viewport HookScenarios.thousand
           HookScenarios.rows 1230); by vm_compute.
Defined.

(** X27.  With a positive item height, a non-negative container height
    and a non-negative overscan, the visible range stays inside the list,
    holds at most [containerHeight / itemHeight + 2 * overscan + 2] items
    however long the list is, and, when [scrollTop] is not negative, the
    offset of the first rendered item is not below the top of the
    viewport. *)
Theorem visibleRange_is_small {T} (items : list T)
    (options : UseVirtualScroll.Options) (scrollTop : Z) :
  0 < UseVirtualScroll.itemHeight options →
  0 ≤ UseVirtualScroll.containerHeight options →
  0 ≤ default 5 (UseVirtualScroll.overscan options) →
  ∃ r, UseVirtualScroll.useVirtualScroll items options scrollTop = Some r ∧
       0 ≤ (UseVirtualScroll.visibleRange r).1
       ∧ (UseVirtualScroll.visibleRange r).2 < Z.of_nat (length items)
       ∧ (UseVirtualScroll.visibleRange r).2
         - (UseVirtualScroll.visibleRange r).1 + 1
         ≤ UseVirtualScroll.containerHeight options
             `div` UseVirtualScroll.itemHeight options
           + 2 * default 5 (UseVirtualScroll.overscan options) + 2
       ∧ (0 ≤ scrollTop → UseVirtualScroll.offsetY r ≤ scrollTop).
Proof.
  intros Hheight Hcontainer Hover. unfold UseVirtualScroll.useVirtualScroll,
    UseVirtualScroll.floorDiv.
  destruct (decide (UseVirtualScroll.itemHeight options = 0)) as [?|_]; [lia|].
  cbn. eexists. split; [done|]. cbn.
  set (h := UseVirtualScroll.itemHeight options) in *.
  set (c := UseVirtualScroll.containerHeight options) in *.
  set (o := default 5 (UseVirtualScroll.overscan options)) in *.
  pose proof (Z.div_mod scrollTop h) as Hs.
  pose proof (Z.mod_pos_bound scrollTop h Hheight) as Hsm.
  pose proof (Z.div_mod c h) as Hc.
  pose proof (Z.mod_pos_bound c h Hheight) as Hcm.
  assert ((scrollTop + c) `div` h ≤ scrollTop `div` h + c `div` h + 1).
  { apply Z.lt_succ_r, Z.div_lt_upper_bound; [done|]. nia. }
  repeat split; [lia|lia|lia|].
  intros Hpos.
  assert (0 ≤ scrollTop `div` h) by (apply Z.div_pos; lia).
  assert (Z.max 0 (scrollTop `div` h - o) ≤ scrollTop `div` h) by lia.
  nia.
Qed.

Lemma visibleRange_is_small_witness :
  ∃ r, UseVirtualScroll.useVirtualScroll HookScenarios.thousand
         HookScenarios.rows 1230 = Some r ∧
       0 ≤ (UseVirtualScroll.visibleRange r).1
       ∧ (UseVirtualScroll.visibleRange r).2
         < Z.of_nat (length HookScenarios.thousand)
       ∧ (UseVirtualScroll.visibleRange r).2
         - (UseVirtualScroll.visibleRange r).1 + 1
         ≤ 450 `div` 100 + 2 * 2 + 2
       ∧ (0 ≤ 1230 → UseVirtualScroll.offsetY r ≤ 1230).
Proof.
  apply (visibleRange_is_small HookScenarios.thousand HookScenarios.rows 1230);
    by vm_compute.
Defined.

(** ** Error notifications *)

Section ErrorHandlerFacts.
Import Js UseErrorHandler.

Lemma append_String c (s t : string) : String c s +:+ t = String c (s +:+ t).
Proof. reflexivity. Qed.

Lemma append_empty (t : string) : "" +:+ t = t.
Proof. reflexivity. Qed.

Lemma append_assoc (s t u : string) : (s +:+ t) +:+ u = s +:+ (t +:+ u).
Proof.
  induction s as [|c s IH]; [done|]. by rewrite !append_String, IH.
Qed.

(** A string of digits in front of a string is what [\d+] takes from it,
    up to the digits the string itself starts with. *)
Lemma digits_append (d rest : string) :
  digits d = d → digits (d +:+ rest) = d +:+ digits rest.
Proof.
  induction d as [|c d IH]; [done|]. cbn [digits]. rewrite append_String.
  cbn [digits]. destruct (isDigit c); [|done].
  intros [= Hd]. by rewrite IH.
Qed.

Lemma isDigit_pretty_N_char (x : N) : isDigit (pretty_N_char x) = true.
Proof. unfold pretty_N_char. by repeat case_match. Qed.

Lemma pretty_N_go_digits (x : N) :
  ∀ s, ∃ d, pretty_N_go x s = d +:+ s ∧ digits d = d ∧ ((0 < x)%N → d ≠ "").
Proof.
  induction (N.lt_wf_0 x) as [x _ IH]; intros s.
  assert (x = 0 ∨ 0 < x)%N as [->|Hpos] by lia.
  { exists "". rewrite pretty_N_go_0. split; [done|]. split; [done|lia]. }
  rewrite pretty_N_go_step by done.
  destruct (IH (x `div` 10)%N (N.div_lt x 10 Hpos eq_refl)
               (String (pretty_N_char (x `mod` 10)) s)) as (d & -> & Hd & _).
  exists (d +:+ String (pretty_N_char (x `mod` 10)) "").
  rewrite append_assoc, append_String, append_empty. split; [done|]. split.
  - rewrite digits_append by done. cbn [digits].
    by rewrite isDigit_pretty_N_char.
  - intros _. by destruct d.
Qed.

(** The decimal numeral of a status code: digits, and at least one. *)
Lemma pretty_status_digits (status : Z) :
  0 ≤ status → digits (pretty status) = pretty status ∧ pretty status ≠ "".
Proof.
  intros Hstatus. destruct status as [|p|p]; [done| |lia].
  unfold pretty, pretty_Z, pretty, pretty_positive, pretty, pretty_N.
  destruct (decide (N.pos p = 0%N)); [done|].
  destruct (pretty_N_go_digits (N.pos p) "") as (d & -> & Hd & Hne).
  assert (d +:+ "" = d) as ->.
  { clear. induction d as [|c d IH]; [done|]. by rewrite append_String, IH. }
  split; [done|]. apply Hne. lia.
Qed.

Lemma matchHttp_here (s d : string) :
  matchHere s = Some d → matchHttp s = Some d.
Proof. intros Hhere. destruct s; cbn [matchHttp]; by rewrite Hhere. Qed.

Lemma append_empty_r (s : string) : s +:+ "" = s.
Proof. induction s as [|c s IH]; [done|]. by rewrite append_String, IH. Qed.

(** The regular expression finds the status in the message that the
    request client makes up for a body it cannot parse. *)
Lemma matchHttp_status (status : Z) (text : string) :
  0 ≤ status →
  matchHttp ("HTTP " +:+ pretty status +:+ ": " +:+ text) = Some (pretty status).
Proof.
  intros [Hd Hne]%pretty_status_digits. apply matchHttp_here.
  rewrite !append_String, !append_empty.
  unfold matchHere. cbn [afterPrefix Ascii.eqb Bool.eqb].
  rewrite digits_append by done.
  assert (digits (String.append ": " text) = "") as Hcolon by reflexivity.
  rewrite !append_String, append_empty in Hcolon.
  rewrite Hcolon, append_empty_r.
  by destruct (String.eqb_spec (pretty status) "").
Qed.

Lemma includes_HTTP (rest : string) : includes ("HTTP" +:+ rest) "HTTP" = true.
Proof.
  rewrite !append_String, append_empty. cbn. by destruct rest.
Qed.

(** A character other than the first one of [search] starts no
    occurrence of it. *)
Lemma includes_skip c (s : string) c' (search : string) :
  c ≠ c' → includes (String c s) (String c' search) = includes s (String c' search).
Proof.
  intros Hne. cbn [includes String.prefix].
  by destruct (Ascii.ascii_dec c' c) as [->|_].
Qed.

Lemma includes_fetch_digit c (s : string) :
  isDigit c = true → includes (String c s) "fetch" = includes s "fetch".
Proof.
  intros Hc. cbn [includes String.prefix].
  by destruct (Ascii.ascii_dec _ c) as [<-|_].
Qed.

Lemma includes_fetch_digits (d rest : string) :
  digits d = d → includes (d +:+ rest) "fetch" = includes rest "fetch".
Proof.
  induction d as [|c d IH]; [done|]. cbn [digits].
  destruct (isDigit c) eqn:Hc; [|done]. intros [= Hd].
  rewrite append_String, includes_fetch_digit by done.
  by apply IH.
Qed.

Lemma includes_fetch_status (status : Z) (text : string) :
  0 ≤ status →
  includes ("HTTP " +:+ pretty status +:+ ": " +:+ text) "fetch"
  = includes text "fetch".
Proof.
  intros [Hd _]%pretty_status_digits.
  rewrite !append_String, !append_empty.
  rewrite !includes_skip by done.
  rewrite includes_fetch_digits by done.
  by rewrite !includes_skip by done.
Qed.

End ErrorHandlerFacts.

(** X28.  A failed response whose body cannot be parsed makes the
    request client throw [HTTP <status>: <statusText>]; [handleApiError]
    reads the status back out of that message as the error code and
    shows the text the hook has for that code (the message itself when it
    has none), provided the status text does not contain [fetch]. *)
Theorem handleApiError_reads_status (response : ApiClient.Response)
    (reason : Js.Thrown) (now : Z) :
  ApiClient.ok response = false →
  ApiClient.json response = Js.Rejected reason →
  0 ≤ ApiClient.status response →
  Js.includes (ApiClient.statusText response) "fetch" = false →
  ∃ thrown,
    ApiClient.handleResponse response = inl thrown
    ∧ UseErrorHandler.handleApiError thrown now
      = UseErrorHandler.showError
          (UseErrorHandler.friendlyMessage
             (pretty (ApiClient.status response))
             ("HTTP " +:+ pretty (ApiClient.status response) +:+ ": "
                +:+ ApiClient.statusText response))
          (Some (pretty (ApiClient.status response))) now.
Proof.
  intros Hok Hjson Hstatus Hfetch. eexists. split.
  { by apply handleResponse_not_ok. }
  unfold ApiClient.failureMessage. rewrite Hjson.
  unfold Js.orElse.
  set (msg := "HTTP " +:+ pretty (ApiClient.status response) +:+ ": "
                +:+ ApiClient.statusText response).
  assert (String.eqb msg "" = false) as -> by done.
  unfold UseErrorHandler.handleApiError.
  cbn [Js.message Js.name Js.newError]. change (String.eqb "Error" "AbortError") with false.
  cbn iota. subst msg.
  rewrite includes_fetch_status, Hfetch by done.
  rewrite matchHttp_status by done.
  change ("HTTP " +:+ pretty (ApiClient.status response) +:+ ": "
            +:+ ApiClient.statusText response)
    with ("HTTP" +:+ " " +:+ pretty (ApiClient.status response) +:+ ": "
            +:+ ApiClient.statusText response) at 1.
  by rewrite includes_HTTP.
Qed.

Lemma handleApiError_reads_status_witness :
  ∃ thrown,
    ApiClient.handleResponse ApiScenarios.notFoundPlain = inl thrown
    ∧ UseErrorHandler.handleApiError thrown 1000
      = UseErrorHandler.showError "The requested resource was not found."
          (Some "404") 1000.
Proof.
  apply (handleApiError_reads_status ApiScenarios.notFoundPlain
           (Js.ThrowError {| Js.name := "SyntaxError";
                             Js.message := "Unexpected token <" |}) 1000);
    by vm_compute.
Defined.

(** X29.  A failed response whose body carries a [detail] is shown with
    that detail and without a code, whatever its status: the texts that
    the hook keeps per status code are not used for it (the detail is
    taken not to contain [HTTP] or [fetch]). *)
Theorem handleApiError_shows_detail (response : ApiClient.Response)
    (data : ApiClient.Json) (detail : string) (now : Z) :
  ApiClient.ok response = false →
  ApiClient.json response = Js.Resolved data →
  data !! "detail" = Some detail →
  detail ≠ "" →
  Js.includes detail "HTTP" = false →
  Js.includes detail "fetch" = false →
  ∃ thrown,
    ApiClient.handleResponse response = inl thrown
    ∧ UseErrorHandler.handleApiError thrown now
      = UseErrorHandler.showError detail None now.
Proof.
  intros Hok Hjson Hdetail Hne Hhttp Hfetch. eexists. split.
  { by apply handleResponse_not_ok. }
  unfold ApiClient.failureMessage. rewrite Hjson, Hdetail. unfold Js.orElse.
  destruct (String.eqb_spec detail ""); [done|].
  unfold UseErrorHandler.handleApiError. cbn [Js.message Js.name Js.newError].
  by rewrite Hhttp, Hfetch.
Qed.

Lemma handleApiError_shows_detail_witness :
  ∃ thrown,
    ApiClient.handleResponse ApiScenarios.notFound = inl thrown
    ∧ UseErrorHandler.handleApiError thrown 1000
      = UseErrorHandler.showError "Person not found" None 1000.
Proof.
  apply (handleApiError_shows_detail ApiScenarios.notFound
           {[ "detail" := "Person not found" ]} "Person not found" 1000);
    by vm_compute.
Defined.

(** X30.  A request whose first attempt runs into the timeout makes one
    fetch, and [handleApiError] reports its failure with the code
    [TIMEOUT] and the text for a timeout, whatever message the engine
    gives the abort. *)
Theorem timeout_reported_as_TIMEOUT (abortMessage : string)
    (handler : Z → string → RequestConfig.t → ApiClient.NetOutcome)
    (client : ApiClient.t) (endpoint : string) (config : RequestConfig.t)
    (now : Z) :
  let retries := default (ApiClientConfig.retries (ApiClient.config client))
                         (RequestConfig.retries config) in
  let url := ApiClientConfig.baseUrl (ApiClient.config client) +:+ endpoint in
  let cfg := ApiClient.mergeConfig client config in
  0 ≤ retries →
  ApiClient.timerFiresFirst client cfg (handler 0 url cfg) →
  ∃ thrown,
    ApiClient.requestWithRetry abortMessage handler client endpoint config
    = (inl thrown, [ApiClient.Fetch url cfg])
    ∧ UseErrorHandler.handleApiError thrown now
      = UseErrorHandler.showError
          "Request timed out. Please check your connection and try again."
          (Some "TIMEOUT") now.
Proof.
  intros retries url cfg Hretries Htimer.
  exists (Js.ThrowError (ApiClient.abortError abortMessage)). split.
  2:{ unfold UseErrorHandler.handleApiError.
      cbn [Js.name Js.message ApiClient.abortError].
      destruct (Js.includes abortMessage "HTTP"); [|done].
      by destruct (UseErrorHandler.matchHttp abortMessage). }
  unfold ApiClient.requestWithRetry. fold retries url cfg.
  replace (Z.to_nat (retries + 1)) with (S (Z.to_nat retries)) by lia.
  by rewrite (retryLoop_not_retried abortMessage handler client url cfg _ _ _ _ _
                (Js.ThrowError (ApiClient.abortError abortMessage))
                (tryOnce_timeout _ _ _ _ _ _ Htimer)).
Qed.

Lemma timeout_reported_as_TIMEOUT_witness :
  ∃ thrown,
    ApiClient.requestWithRetry "The user aborted a request."
      (λ _ _ _, ApiClient.NeverSettles) ApiClient.new "/api/photos"
      ApiScenarios.twoRetries
    = (inl thrown,
       [ApiClient.Fetch
          (ApiClientConfig.baseUrl (ApiClient.config ApiClient.new)
             +:+ "/api/photos")
          (ApiClient.mergeConfig ApiClient.new ApiScenarios.twoRetries)])
    ∧ UseErrorHandler.handleApiError thrown 1000
      = UseErrorHandler.showError
          "Request timed out. Please check your connection and try again."
          (Some "TIMEOUT") 1000.
Proof.
  apply (timeout_reported_as_TIMEOUT "The user aborted a request."
           (λ _ _ _, ApiClient.NeverSettles) ApiClient.new "/api/photos"
           ApiScenarios.twoRetries 1000).
  - by vm_compute.
  - exact I.
Defined.
